(** * Pipeline orchestrator (lib/orchestrator.py)

    A shallow embedding of [Step] and [Pipeline] and of the store of
    Python objects they work on, followed by the properties of
    [Step.run] and [Pipeline.run].

    Python dictionaries are objects: [Pipeline.run] binds [context] to the
    caller's dictionary when one is given, stores that same object under
    ["_context"], and stores each step result under two keys.  The store
    is therefore explicit: a finite map from locations to dictionaries,
    threaded through every function that can write.  Console output is
    not part of the model: the calls of [print] are taken to succeed. *)

From Stdlib Require Import Ascii String.
From stdpp Require Import gmap strings list fin_maps.

Open Scope string_scope.

(** ** Values and the store *)

Abbreviation loc := nat (only parsing).

(** Python values.  [VRef l] is a reference to the dictionary object at
    location [l]; [VObj cls id] stands for an instance of another class
    that has no [get] attribute ([float], [list], [tuple], ...), [id]
    telling instances apart.  Objects of classes other than [dict] that
    have a [get] method (the other mapping types) are not represented. *)
Inductive val :=
  | VNone
  | VBool (b : bool)
  | VInt (n : Z)
  | VStr (s : string)
  | VObj (cls : string) (id : nat)
  | VRef (l : loc).

#[global] Instance value_eq_dec : EqDecision val.
Proof. solve_decision. Defined.

#[global] Instance value_inhabited : Inhabited val := populate VNone.

(** A dictionary with string keys, and the store of dictionary objects. *)
Abbreviation dict := (gmap string val) (only parsing).
Abbreviation heap := (gmap nat (gmap string val)) (only parsing).

(** The dictionary a location holds (a location outside the store reads as
    the empty dictionary; a well-formed store has no such reference). *)
Definition deref (h : heap) (l : loc) : dict := default ∅ (h !! l).

(** [{...}] : a new dictionary object. *)
Definition alloc (h : heap) (d : dict) : loc * heap :=
  let l := fresh (dom h) in (l, <[l := d]> h).

(** [obj[key] = v] on the dictionary object at [l]. *)
Definition setitem (h : heap) (l : loc) (key : string) (v : val) : heap :=
  <[l := <[key := v]> (deref h l)]> h.

(** [d.get(key, dflt)] *)
Definition dict_get (d : dict) (key : string) (dflt : val) : val :=
  default dflt (d !! key).

(** ** Results of calls *)

(** A call either returns or raises; an exception (any instance of
    [Exception], which is what [Pipeline.run] catches) is represented by
    [str(e)], the only thing the orchestrator reads from it.  The
    exceptions of other classes come with [AnyStep] and [AnyPipeline]
    below. *)
Inductive outcome (A : Type) :=
  | Returns (a : A)
  | Raises (msg : string).
Arguments Returns {A} a.
Arguments Raises {A} msg.

Definition is_raise {A} (o : outcome A) : bool :=
  match o with Raises _ => true | Returns _ => false end.

(** What a call of an action does: its result, and the dictionary objects
    it created or rewrote.  Objects are never deallocated, so the store
    after the call is [writes ∪ h]. *)
Record effect := Effect {
  result : outcome val;
  writes : gmap nat (gmap string val)
}.

(** ** String operations used by reference resolution *)

(** [s[n:]] *)
Fixpoint str_drop (n : nat) (s : string) : string :=
  match n, s with
  | O, _ => s
  | S _, EmptyString => EmptyString
  | S n', String _ r => str_drop n' r
  end.

(** [sep in s], for a one-character [sep] *)
Fixpoint contains (sep : ascii) (s : string) : bool :=
  match s with
  | EmptyString => false
  | String c r => if decide (c = sep) then true else contains sep r
  end.

(** The text before and after the first [sep], if [sep] occurs. *)
Fixpoint cut (sep : ascii) (s : string) : option (string * string) :=
  match s with
  | EmptyString => None
  | String c r =>
      if decide (c = sep) then Some (EmptyString, r)
      else match cut sep r with
           | Some (a, b) => Some (String c a, b)
           | None => None
           end
  end.

(** [s.split(sep, 1)], for a one-character [sep] *)
Definition split1 (sep : ascii) (s : string) : list string :=
  match cut sep s with
  | Some (a, b) => [a; b]
  | None => [s]
  end.

(** ** Attribute lookup *)

Definition type_name (v : val) : string :=
  match v with
  | VNone => "NoneType"
  | VBool _ => "bool"
  | VInt _ => "int"
  | VStr _ => "str"
  | VObj cls _ => cls
  | VRef _ => "dict"
  end.

Definition no_attribute (v : val) (attr : string) : string :=
  "'" +:+ type_name v +:+ "' object has no attribute '" +:+ attr +:+ "'".

(** [v.get(key)] : of the values represented, only dictionaries have
    [get]. *)
Definition py_get (h : heap) (v : val) (key : string) : outcome val :=
  match v with
  | VRef l => Returns (dict_get (deref h l) key VNone)
  | _ => Raises (no_attribute v "get")
  end.

(** The values of the built-in types [NoneType], [bool], [int] and [str]:
    none of these types has a [get] attribute. *)
Definition scalar (v : val) : Prop :=
  match v with
  | VNone | VBool _ | VInt _ | VStr _ => True
  | VObj _ _ | VRef _ => False
  end.

(** [context.get(step_name, {}).get(output_key)] : the default [{}] is a
    new empty dictionary, which nothing else refers to. *)
Definition lookup_output (h : heap) (context : loc)
    (step_name output_key : string) : outcome val :=
  match deref h context !! step_name with
  | Some found => py_get h found output_key
  | None => Returns (dict_get ∅ output_key VNone)
  end.

(** ** Step *)

(** The body of the loop of [Step.run] for one binding: the value bound to
    the argument, or the exception the lookup raises. *)
Definition resolve (h : heap) (context : loc) (value : val) : outcome val :=
  match value with
  | VStr s =>
      if String.prefix "$" s then
        let ref := str_drop 1 s in
        if contains "."%char ref then
          match split1 "."%char ref with
          | [step_name; output_key] =>
              lookup_output h context step_name output_key
          | _ => Raises "not enough values to unpack (expected 2, got 1)"
          end
        else Returns (dict_get (deref h context) ref VNone)
      else Returns value
  | _ => Returns value
  end.

Module Step.

(** [inputs] keeps the insertion order of the Python dictionary, which is
    the order [items()] yields. *)
Record t := mk {
  name : string;
  action : gmap string val → gmap nat (gmap string val) → effect;
  inputs : list (string * val);
  outputs : list string
}.

(** [for key, value in self.inputs.items(): resolved_inputs[key] = ...] *)
Fixpoint resolve_inputs (h : heap) (context : loc)
    (items : list (string * val)) (resolved_inputs : dict) : outcome dict :=
  match items with
  | [] => Returns resolved_inputs
  | (key, value) :: rest =>
      match resolve h context value with
      | Returns v => resolve_inputs h context rest (<[key := v]> resolved_inputs)
      | Raises e => Raises e
      end
  end.

(** [Step.run]: resolve the inputs, call the action. *)
Definition run (self : t) (context : loc) (h : heap) : outcome val * heap :=
  match resolve_inputs h context (inputs self) ∅ with
  | Returns resolved_inputs =>
      let e := action self resolved_inputs h in
      (result e, writes e ∪ h)
  | Raises e => (Raises e, h)
  end.

End Step.

(** ** Pipeline *)

Module Pipeline.

Record t := mk {
  name : string;
  description : string;
  steps : list Step.t
}.

Definition add_step (self : t) (step : Step.t) : t :=
  mk (name self) (description self) (steps self ++ [step]).

(** [context = initial_context or {}] and the two stamps that follow.
    An empty dictionary is falsy, so it is replaced by a new one. *)
Definition init (self : t) (initial_context : option loc) (started : string)
    (h : heap) : loc * heap :=
  let '(context, h) :=
    match initial_context with
    | Some l => if decide (deref h l = ∅) then alloc h ∅ else (l, h)
    | None => alloc h ∅
    end in
  let h := setitem h context "_pipeline" (VStr (name self)) in
  let h := setitem h context "_started" (VStr started) in
  (context, h).

(** The [for] loop with its [try]/[except]/[break]. *)
Fixpoint loop (context : loc) (steps : list Step.t) (results : dict)
    (h : heap) : dict * heap :=
  match steps with
  | [] => (results, h)
  | step :: rest =>
      match Step.run step context h with
      | (Returns result, h) =>
          let results := <[Step.name step := result]> results in
          let h := setitem h context (Step.name step) result in
          loop context rest results h
      | (Raises e, h) =>
          let '(err, h) := alloc h {["error" := VStr e]} in
          let results := <[Step.name step := VRef err]> results in
          let h := setitem h context "_error" (VStr e) in
          (results, h)
      end
  end.

(** What the loop observes: each step it runs, with the outcome of
    [step.run(context)], in order.  The list ends at the first
    exception. *)
Fixpoint trace (context : loc) (steps : list Step.t) (h : heap)
    : list (Step.t * outcome val) :=
  match steps with
  | [] => []
  | step :: rest =>
      match Step.run step context h with
      | (Returns result, h) =>
          (step, Returns result)
            :: trace context rest (setitem h context (Step.name step) result)
      | (Raises e, _) => [(step, Raises e)]
      end
  end.

(** [Pipeline.run].  [started] and [completed] are the two readings of
    [datetime.now().isoformat()]; the result is the content of the
    [results] dictionary, which no other object refers to before it is
    returned, and the store. *)
Definition run (self : t) (initial_context : option loc)
    (started completed : string) (h : heap) : dict * heap :=
  let '(context, h) := init self initial_context started h in
  let '(results, h) := loop context (steps self) ∅ h in
  let h := setitem h context "_completed" (VStr completed) in
  (<["_context" := VRef context]> results, h).

(** The working context of a run and the trace of its loop. *)
Definition run_context (self : t) (initial_context : option loc)
    (started : string) (h : heap) : loc :=
  (init self initial_context started h).1.

Definition run_trace (self : t) (initial_context : option loc)
    (started : string) (h : heap) : list (Step.t * outcome val) :=
  let '(context, h) := init self initial_context started h in
  trace context (steps self) h.

End Pipeline.

(** [run_pipeline(pipeline, context)] *)
Definition run_pipeline (pipeline : Pipeline.t) (context : option loc)
    (started completed : string) (h : heap) : dict * heap :=
  Pipeline.run pipeline context started completed h.

(** ** Exceptions that are not instances of [Exception]

    The [except Exception] clause of [Pipeline.run] catches the instances
    of [Exception].  [asyncio.CancelledError], [KeyboardInterrupt] and
    [SystemExit] derive from [BaseException] alone and pass through it.
    [Step] and [Pipeline] above describe actions that return or raise an
    instance of [Exception]; [AnyStep] and [AnyPipeline] are [Step.run] and
    [Pipeline.run] for actions that can raise the other exceptions as
    well.  The calls of [print] are taken to succeed. *)

(** How a call of an action ends: as an [effect] (it returns, or raises an
    instance of [Exception]), or with an exception of another class, of
    which [str(e)] and the writes made before it are kept. *)
Inductive ending :=
  | Ordinary (e : effect)
  | Escapes (exc : string) (written : gmap nat (gmap string val)).

(** What a call gives its caller: a value, or an exception that it lets
    through. *)
Inductive completion (A : Type) :=
  | Completes (a : A)
  | Propagates (exc : string).
Arguments Completes {A} a.
Arguments Propagates {A} exc.

Module AnyStep.

Record t := mk {
  name : string;
  action : gmap string val → gmap nat (gmap string val) → ending;
  inputs : list (string * val);
  outputs : list string
}.

(** [Step.run]: whatever the action raises leaves [run]; an exception
    that is not an instance of [Exception] is told apart because the
    caller does not catch it. *)
Definition run (self : t) (context : loc) (h : heap)
    : completion (outcome val) * heap :=
  match Step.resolve_inputs h context (inputs self) ∅ with
  | Returns resolved_inputs =>
      match action self resolved_inputs h with
      | Ordinary e => (Completes (result e), writes e ∪ h)
      | Escapes exc written => (Propagates exc, written ∪ h)
      end
  | Raises e => (Completes (Raises e), h)
  end.

End AnyStep.

Module AnyPipeline.

Record t := mk {
  name : string;
  description : string;
  steps : list AnyStep.t
}.

(** The [for] loop: [except Exception] handles [Raises e]; any other
    exception ends the loop and [run] with it. *)
Fixpoint loop (context : loc) (steps : list AnyStep.t) (results : dict)
    (h : heap) : completion dict * heap :=
  match steps with
  | [] => (Completes results, h)
  | step :: rest =>
      match AnyStep.run step context h with
      | (Completes (Returns result), h) =>
          let results := <[AnyStep.name step := result]> results in
          let h := setitem h context (AnyStep.name step) result in
          loop context rest results h
      | (Completes (Raises e), h) =>
          let '(err, h) := alloc h {["error" := VStr e]} in
          let results := <[AnyStep.name step := VRef err]> results in
          let h := setitem h context "_error" (VStr e) in
          (Completes results, h)
      | (Propagates exc, h) => (Propagates exc, h)
      end
  end.

(** What the loop observes, as [Pipeline.trace]. *)
Fixpoint trace (context : loc) (steps : list AnyStep.t) (h : heap)
    : list (AnyStep.t * completion (outcome val)) :=
  match steps with
  | [] => []
  | step :: rest =>
      match AnyStep.run step context h with
      | (Completes (Returns result), h) =>
          (step, Completes (Returns result))
            :: trace context rest (setitem h context (AnyStep.name step) result)
      | (o, _) => [(step, o)]
      end
  end.

(** [context = initial_context or {}] and the two stamps, as
    [Pipeline.init]. *)
Definition init (self : t) (initial_context : option loc) (started : string)
    (h : heap) : loc * heap :=
  let '(context, h) :=
    match initial_context with
    | Some l => if decide (deref h l = ∅) then alloc h ∅ else (l, h)
    | None => alloc h ∅
    end in
  let h := setitem h context "_pipeline" (VStr (name self)) in
  let h := setitem h context "_started" (VStr started) in
  (context, h).

(** [Pipeline.run]: the lines after the loop are reached only when the
    loop ends without an exception of its own. *)
Definition run (self : t) (initial_context : option loc)
    (started completed : string) (h : heap) : completion dict * heap :=
  let '(context, h) := init self initial_context started h in
  match loop context (steps self) ∅ h with
  | (Completes results, h) =>
      let h := setitem h context "_completed" (VStr completed) in
      (Completes (<["_context" := VRef context]> results), h)
  | (Propagates exc, h) => (Propagates exc, h)
  end.

Definition run_context (self : t) (initial_context : option loc)
    (started : string) (h : heap) : loc :=
  (init self initial_context started h).1.

Definition run_trace (self : t) (initial_context : option loc)
    (started : string) (h : heap)
    : list (AnyStep.t * completion (outcome val)) :=
  let '(context, h) := init self initial_context started h in
  trace context (steps self) h.

End AnyPipeline.

(** A step and a pipeline whose actions raise instances of [Exception]
    only, among those that can raise anything. *)
Definition any_step (s : Step.t) : AnyStep.t :=
  AnyStep.mk (Step.name s) (λ kw h, Ordinary (Step.action s kw h))
    (Step.inputs s) (Step.outputs s).

Definition any_pipeline (p : Pipeline.t) : AnyPipeline.t :=
  AnyPipeline.mk (Pipeline.name p) (Pipeline.description p)
    (any_step <$> Pipeline.steps p).

(** ** Auxiliary notions used in the statements *)

(** Number of occurrences of [sep] in [s]. *)
Fixpoint occurrences (sep : ascii) (s : string) : nat :=
  match s with
  | EmptyString => 0
  | String c r => (if decide (c = sep) then 1 else 0) + occurrences sep r
  end.

(** A binding that [Step.run] takes literally: not a string, or a string
    that does not start with ["$"]. *)
Definition literal (v : val) : Prop :=
  ∀ s, v = VStr s → String.prefix "$" s = false.

(** The action of [s] never writes the object at [l] of a store that has
    it; it may create other objects and write those it is given. *)
Definition quiet (l : loc) (s : Step.t) : Prop :=
  ∀ kw h, l ∈ dom h → writes (Step.action s kw h) !! l = None.

(** What the working context starts from: the content of the caller's
    dictionary, if there is one. *)
Definition seed (initial_context : option loc) (h : heap) : dict :=
  match initial_context with
  | Some l => deref h l
  | None => ∅
  end.

(** The key of the context that an iteration writes. *)
Definition written_key (entry : Step.t * outcome val) : string :=
  match entry.2 with
  | Returns _ => Step.name entry.1
  | Raises _ => "_error"
  end.

Definition failed (tr : list (Step.t * outcome val)) : bool :=
  existsb (λ entry, is_raise entry.2) tr.

(** What one iteration of the loop writes to the context. *)
Definition record (d : dict) (entry : Step.t * outcome val) : dict :=
  match entry.2 with
  | Returns result => <[Step.name entry.1 := result]> d
  | Raises e => <["_error" := VStr e]> d
  end.

Definition recorded (tr : list (Step.t * outcome val)) (d : dict) : dict :=
  foldl record d tr.

(** [v] is the entry that [results] gets for outcome [o]: the result of the
    step, or a reference to a dictionary [{"error": str(e)}]. *)
Definition entry_of (h : heap) (o : outcome val) (v : val) : Prop :=
  match o with
  | Returns result => v = result
  | Raises e => ∃ err, v = VRef err ∧ h !! err = Some {["error" := VStr e]}
  end.

(** The steps of a trace that returned, with their results. *)
Definition completed_steps (tr : list (Step.t * outcome val)) : list (string * val) :=
  omap (λ entry, match entry.2 with
                 | Returns result => Some (Step.name entry.1, result)
                 | Raises _ => None
                 end) tr.

(** ** Structure of values *)

(** What a value looks like from outside, to a given depth: dictionaries
    are compared by content, not by location. *)
#[warnings="-register-all"]
Inductive tree :=
  | TScalar (v : val)
  | TDict (entries : gmap string tree)
  | TCut.

Fixpoint view (n : nat) (h : heap) (v : val) : tree :=
  match v with
  | VRef l =>
      match n with
      | O => TCut
      | S n' => TDict (view n' h <$> deref h l)
      end
  | _ => TScalar v
  end.

(** The results [d1] in store [h1] and [d2] in store [h2] are structurally
    identical. *)
Definition same_structure (h1 : heap) (d1 : dict) (h2 : heap) (d2 : dict) : Prop :=
  ∀ n, view n h1 <$> d1 = view n h2 <$> d2.

(** A correspondence [R] between the objects of two stores. *)
Definition val_rel (R : nat → nat → Prop) (v1 v2 : val) : Prop :=
  match v1, v2 with
  | VRef l1, VRef l2 => R l1 l2
  | VRef _, _ | _, VRef _ => False
  | _, _ => v1 = v2
  end.

Definition dict_rel (R : nat → nat → Prop) (d1 d2 : dict) : Prop :=
  ∀ key, option_Forall2 (val_rel R) (d1 !! key) (d2 !! key).

Definition outcome_rel (R : nat → nat → Prop) (o1 o2 : outcome val) : Prop :=
  match o1, o2 with
  | Returns v1, Returns v2 => val_rel R v1 v2
  | Raises e1, Raises e2 => e1 = e2
  | _, _ => False
  end.

(** [R] is one-to-one, relates objects that exist, and related objects
    have related contents. *)
Record store_rel (R : nat → nat → Prop) (h1 h2 : heap) : Prop := {
  rel_dom : ∀ l1 l2, R l1 l2 → l1 ∈ dom h1 ∧ l2 ∈ dom h2;
  rel_fun : ∀ l1 l2 l2', R l1 l2 → R l1 l2' → l2 = l2';
  rel_inj : ∀ l1 l1' l2, R l1 l2 → R l1' l2 → l1 = l1';
  rel_content : ∀ l1 l2, R l1 l2 → dict_rel R (deref h1 l1) (deref h2 l2)
}.

(** A deterministic action without state of its own: what it returns and
    writes is determined by the structure of its arguments. *)
Definition deterministic (a : dict → heap → effect) : Prop :=
  ∀ R kw1 kw2 h1 h2,
    store_rel R h1 h2 → dict_rel R kw1 kw2 →
    ∃ R' : nat → nat → Prop,
      (∀ l1 l2, R l1 l2 → R' l1 l2)
      ∧ store_rel R' (writes (a kw1 h1) ∪ h1) (writes (a kw2 h2) ∪ h2)
      ∧ outcome_rel R' (result (a kw1 h1)) (result (a kw2 h2)).

(** No dictionary of the store refers to an object outside the store. *)
Definition closed (h : heap) : Prop :=
  ∀ l d key l', h !! l = Some d → d !! key = Some (VRef l') → l' ∈ dom h.

(** The dictionaries that the literal inputs of [p] refer to are in [h]. *)
Definition inputs_in (p : Pipeline.t) (h : heap) : Prop :=
  ∀ s key l, s ∈ Pipeline.steps p → (key, VRef l) ∈ Step.inputs s → l ∈ dom h.

(** A correspondence with one more pair. *)
Definition extend (R : nat → nat → Prop) (a b : nat) : nat → nat → Prop :=
  λ l1 l2, R l1 l2 ∨ (l1 = a ∧ l2 = b).

(** ** The clock readings *)

(** The keys under which [run] stores [datetime.now().isoformat()]. *)
Definition stamps : list string := ["_started"; "_completed"].

(** A dictionary, and the object at [c] of a store, without the clock
    readings. *)
Definition unstamp (d : dict) : dict :=
  delete "_started" (delete "_completed" d).

Definition unstamped (c : loc) (h : heap) : heap :=
  <[c := unstamp (deref h c)]> h.

(** The action of [s] does not read the object at [l]: what it does is
    the same whatever that object holds. *)
Definition blind (l : loc) (s : Step.t) : Prop :=
  ∀ kw h d, l ∈ dom h → Step.action s kw (<[l := d]> h) = Step.action s kw h.

(** A binding that does not name a stamp, as the step name or as the
    output key of a reference. *)
Definition stamp_free (v : val) : Prop :=
  ∀ ref, v = VStr (String "$" ref) →
    match cut "." ref with
    | Some (step_name, output_key) =>
        (step_name ∉ stamps) ∧ (output_key ∉ stamps)
    | None => (ref ∉ stamps)
    end.

(** Step [s] has nothing to do with the clock readings kept in the object
    at [c]: its action neither writes nor reads that object, its name is
    not that of a stamp, and none of its references names one. *)
Definition timeless (c : loc) (s : Step.t) : Prop :=
  quiet c s ∧ blind c s ∧ (Step.name s ∉ stamps)
  ∧ Forall (λ binding, stamp_free binding.2) (Step.inputs s).

(** Nothing in the store and no input of [p] refers to the object at
    [c]. *)
Definition unreferenced (c : loc) (p : Pipeline.t) (h : heap) : Prop :=
  (∀ l d key, h !! l = Some d → d !! key ≠ Some (VRef c))
  ∧ (∀ s key, s ∈ Pipeline.steps p → (key, VRef c) ∉ Step.inputs s).

(** ** Examples *)

(** The store of the resolution examples: object 0 is the context
    [{"a": {"x": 1, "y": 2}}], object 1 is the result of step ["a"]. *)
Definition example_store : heap :=
  <[0 := {["a" := VRef 1]}]>
    (<[1 := <["x" := VInt 1]> {["y" := VInt 2]}]> ∅).

(** Two actions for the examples: one returns a new dictionary with the
    given content, the other raises. *)
Definition returning (d : dict) (kw : dict) (h : heap) : effect :=
  let l := fresh (dom h) in Effect (Returns (VRef l)) {[l := d]}.

Definition raising (e : string) (kw : dict) (h : heap) : effect :=
  Effect (Raises e) ∅.

(** A pipeline of four steps whose second step raises. *)
Definition four_steps : Pipeline.t :=
  Pipeline.mk "four" "" [
    Step.mk "one" (returning {["value" := VInt 1]}) [] ["value"];
    Step.mk "two" (raising "boom") [("n", VStr "$one.value")] [];
    Step.mk "three" (returning {["value" := VInt 3]}) [] ["value"];
    Step.mk "four" (returning {["value" := VInt 4]}) [] ["value"]
  ].

(** A caller's store with one non-empty dictionary, and a pipeline without
    steps. *)
Definition caller_store : heap := {[0 := {["user" := VStr "ann"]}]}.

Definition no_steps : Pipeline.t := Pipeline.mk "empty" "" [].

(** A step with two literal bindings. *)
Definition greet : Step.t :=
  Step.mk "greet" (returning {["text" := VStr "hello"]})
    [("topic", VStr "rust"); ("count", VInt 3)] ["text"].

(** The action of the two-step scenario: [{"value": n * 2}]. *)
Definition doubling (kw : dict) (h : heap) : effect :=
  match kw !! "n" with
  | Some (VInt n) =>
      let l := fresh (dom h) in
      Effect (Returns (VRef l)) {[l := {["value" := VInt (n * 2)]}]}
  | _ => Effect (Raises "unsupported operand") ∅
  end.

Definition fetch_then_double : Pipeline.t :=
  Pipeline.mk "scenario" "" [
    Step.mk "fetch" (returning {["value" := VInt 10]}) [] ["value"];
    Step.mk "double" doubling [("n", VStr "$fetch.value")] ["value"]
  ].

(** ** The builder helpers *)

(** [create_pipeline(name, description)] : [steps] starts empty. *)
Definition create_pipeline (name description : string) : Pipeline.t :=
  Pipeline.mk name description [].

(** [step(name, action, inputs, outputs)] : [inputs or {}], [outputs or []];
    [None] stands for an omitted argument. *)
Definition step (name : string)
    (action : dict → heap → effect)
    (inputs : option (list (string * val))) (outputs : option (list string))
    : Step.t :=
  Step.mk name action (default [] inputs) (default [] outputs).

(** ** The example pipelines *)

(** The key of the context that a reference reads first: the whole of
    [ref], or the text before its first dot. *)
Definition target (ref : string) : string := hd "" (split1 "." ref).

(** Every input of [p] that [Step.run] takes for a reference reads the
    entry of a step that comes earlier in [p]. *)
Definition wired (p : Pipeline.t) : Prop :=
  ∀ j s key ref,
    Pipeline.steps p !! j = Some s →
    (key, VStr (String "$" ref)) ∈ Step.inputs s →
    ∃ i earlier,
      i < j ∧ Pipeline.steps p !! i = Some earlier
      ∧ Step.name earlier = target ref.

(** [if s:] for an optional string: [None] and [""] are falsy. *)
Definition truthy (s : option string) : bool :=
  match s with
  | Some EmptyString | None => false
  | Some _ => true
  end.

Section example_pipelines.

(** The actions of the example pipelines call external services; they are
    parameters here, and so is [str.title]. *)
Variables research_topic write_content generate_hero_image save_to_docs
  : dict → heap → effect.
Variables pull_data analyze_data research write_newsletter
  generate_header_image create_draft
  : dict → heap → effect.
Variable title : string → string.

(** [examples/content_pipeline.py], [create_content_pipeline] *)
Definition create_content_pipeline (topic content_type : string) : Pipeline.t :=
  let pipeline :=
    Pipeline.mk "content_creation"
      ("Create " +:+ content_type +:+ " about: " +:+ topic) [] in
  let pipeline :=
    Pipeline.add_step pipeline
      (Step.mk "research" research_topic [("topic", VStr topic)] []) in
  let pipeline :=
    Pipeline.add_step pipeline
      (Step.mk "write" write_content
         [("topic", VStr topic);
          ("research", VStr "$research.research");
          ("content_type", VStr content_type)] []) in
  let pipeline :=
    Pipeline.add_step pipeline
      (Step.mk "image" generate_hero_image [("topic", VStr topic)] []) in
  let pipeline :=
    Pipeline.add_step pipeline
      (Step.mk "save" save_to_docs
         [("title", VStr (title content_type +:+ ": " +:+ topic));
          ("content", VStr "$write.content")] []) in
  pipeline.

(** [examples/newsletter_pipeline.py], [create_newsletter_pipeline] *)
Definition create_newsletter_pipeline (topic : string)
    (spreadsheet_id : option string) (sheet_range : string)
    (recipient : option string) : Pipeline.t :=
  let pipeline :=
    Pipeline.mk "newsletter" ("Generate newsletter about: " +:+ topic) [] in
  let pipeline :=
    if truthy spreadsheet_id then
      let pipeline :=
        Pipeline.add_step pipeline
          (Step.mk "pull_data" pull_data
             [("spreadsheet_id", VStr (default "" spreadsheet_id));
              ("range", VStr sheet_range)] []) in
      Pipeline.add_step pipeline
        (Step.mk "analyze" analyze_data
           [("data", VStr "$pull_data.data"); ("context", VStr topic)] [])
    else
      Pipeline.add_step pipeline
        (Step.mk "analyze" research [("topic", VStr topic)] []) in
  let pipeline :=
    Pipeline.add_step pipeline
      (Step.mk "write" write_newsletter
         [("analysis", VStr "$analyze.analysis"); ("topic", VStr topic)] []) in
  let pipeline :=
    Pipeline.add_step pipeline
      (Step.mk "image" generate_header_image [("topic", VStr topic)] []) in
  let pipeline :=
    if truthy recipient then
      Pipeline.add_step pipeline
        (Step.mk "draft" create_draft
           [("to", VStr (default "" recipient));
            ("subject", VStr ("Newsletter: " +:+ topic));
            ("body", VStr "$write.newsletter")] [])
    else pipeline in
  pipeline.

End example_pipelines.

(** ** Text operations of [create_draft]

    The methods of [str] that [create_draft] in
    [examples/newsletter_pipeline.py] uses, for texts whose characters
    are code points below 256: a [latin1] text is a [string] with one
    [ascii] per character, its code point.  Texts with other characters
    are not represented, and nothing is said of them. *)

Abbreviation latin1 := string (only parsing).

(** [c.isspace()], for a code point below 256 *)
Definition is_space (c : ascii) : bool :=
  let n := nat_of_ascii c in
  (Nat.leb 9 n && Nat.leb n 13) || (Nat.leb 28 n && Nat.leb n 32)
  || Nat.eqb n 133 || Nat.eqb n 160.

(** [c.lower()], for a code point below 256: the capital letters are A-Z
    and, above 127, the range from 192 to 222 without the multiplication
    sign. *)
Definition lower_char (c : ascii) : ascii :=
  let n := nat_of_ascii c in
  if (Nat.leb 65 n && Nat.leb n 90)
     || (Nat.leb 192 n && Nat.leb n 222 && negb (Nat.eqb n 215))
  then ascii_of_nat (n + 32) else c.

(** [s.lower()] *)
Fixpoint lower (s : string) : string :=
  match s with
  | EmptyString => EmptyString
  | String c r => String (lower_char c) (lower r)
  end.

(** [s.lstrip()], [s.rstrip()], [s.strip()] *)
Fixpoint lstrip (s : string) : string :=
  match s with
  | EmptyString => EmptyString
  | String c r => if is_space c then lstrip r else s
  end.

Fixpoint rstrip (s : string) : string :=
  match s with
  | EmptyString => EmptyString
  | String c r =>
      match rstrip r with
      | EmptyString => if is_space c then EmptyString else String c EmptyString
      | kept => String c kept
      end
  end.

Definition strip (s : string) : string := rstrip (lstrip s).

(** [s.split(sep)], for a one-character [sep] *)
Fixpoint str_split (sep : ascii) (s : string) : list string :=
  match s with
  | EmptyString => [EmptyString]
  | String c r =>
      if decide (c = sep) then EmptyString :: str_split sep r
      else match str_split sep r with
           | first :: others => String c first :: others
           | [] => [String c EmptyString]
           end
  end.

(** [sep.join(parts)] *)
Fixpoint str_join (sep : string) (parts : list string) : string :=
  match parts with
  | [] => EmptyString
  | [part] => part
  | part :: others => part +:+ sep +:+ str_join sep others
  end.

(** [s.replace(old, new)] for a non-empty [old]: occurrences are replaced
    from left to right, without overlap; [skip] counts the characters of
    a replaced occurrence that are still to pass. *)
Fixpoint str_replace_from (old new : string) (skip : nat) (s : string) : string :=
  match s with
  | EmptyString => EmptyString
  | String c r =>
      match skip with
      | S k => str_replace_from old new k r
      | O =>
          if String.prefix old s
          then new +:+ str_replace_from old new (String.length old - 1) r
          else String c (str_replace_from old new 0 r)
      end
  end.

Definition str_replace (old new s : string) : string :=
  str_replace_from old new 0 s.

(** [old in s] *)
Fixpoint occurs (old s : string) : bool :=
  String.prefix old s
  || match s with
     | EmptyString => false
     | String _ r => occurs old r
     end.

(** [examples/newsletter_pipeline.py], [create_draft]: the subject and
    the body that it passes to [google_workspace.create_draft], for a
    subject and a body of code points below 256. *)
Definition draft_fields (subject body : latin1) : outcome (latin1 * latin1) :=
  let lines := str_split "010" (strip body) in
  match lines with
  | [] => Raises "list index out of range"
  | first :: others =>
      if String.prefix "subject:" (lower first) then
        let subject :=
          strip (str_replace "subject:" "" (str_replace "Subject:" "" first)) in
        let body := strip (str_join (String "010" "") others) in
        Returns (subject, body)
      else Returns (subject, body)
  end.

(** The first line of a text, and what follows its first newline. *)
Definition first_line (s : string) : string :=
  match cut "010" s with
  | Some (line, _) => line
  | None => s
  end.

Definition after_first_line (s : string) : string :=
  match cut "010" s with
  | Some (_, following) => following
  | None => EmptyString
  end.

(** More examples: a step with a reference into a string, a store whose
    dictionary has an ["_error"] left by an earlier run, and a pipeline
    of one step. *)
Definition bad_reference : Step.t :=
  Step.mk "broken" (returning ∅)
    [("count", VInt 1); ("first", VStr "$user.first"); ("last", VStr "$x")] [].

Definition stale_store : heap := {[0 := {["_error" := VStr "old"]}]}.

Definition greeting : Pipeline.t := Pipeline.mk "greeting" "" [greet].

(** A step with the three references of the resolution examples. *)
Definition probe : Step.t :=
  Step.mk "probe" (returning ∅)
    [("whole", VStr "$a"); ("one", VStr "$a.x"); ("none", VStr "$missing.x")]
    [].

(** A pipeline whose only step refers into the ["_pipeline"] entry. *)
Definition stamp_reader : Pipeline.t :=
  Pipeline.mk "reader" ""
    [Step.mk "read" (returning ∅) [("x", VStr "$_pipeline.x")] []].

(** A step with the bare reference ["$"]. *)
Definition bare : Step.t :=
  Step.mk "bare" (returning ∅) [("all", VStr "$"); ("n", VInt 1)] [].

(** [raise asyncio.CancelledError()]: [str(e)] is empty. *)
Definition cancelling (kw : dict) (h : heap) : ending := Escapes "" ∅.

(** A pipeline whose second step is cancelled. *)
Definition cancelled : AnyPipeline.t :=
  AnyPipeline.mk "cancelled" "" [
    any_step (Step.mk "one" (returning {["value" := VInt 1]}) [] ["value"]);
    AnyStep.mk "stop" cancelling [] [];
    any_step (Step.mk "three" (returning {["value" := VInt 3]}) [] ["value"])
  ].

(** The pipeline [four_steps], among those whose actions can raise
    anything. *)
Definition any_four_steps : AnyPipeline.t := any_pipeline four_steps.

(** A caller's store with two dictionaries of the same content. *)
Definition two_callers : heap :=
  <[0 := {["user" := VStr "ann"]}]> {[1 := {["user" := VStr "ann"]}]}.

(** * Properties *)

(** ** Strings *)

Lemma prefix_dollar (r : string) : String.prefix "$" (String "$" r) = true.
Proof. by destruct r. Qed.

Lemma contains_occurrences (sep : ascii) (s : string) :
  contains sep s = false ↔ occurrences sep s = 0.
Proof.
  induction s as [|c r IH]; simpl; [done|].
  destruct (decide (c = sep)); [split; discriminate|].
  by rewrite IH.
Qed.

Lemma cut_app (sep : ascii) (a b : string) :
  contains sep a = false → cut sep (a +:+ String sep b) = Some (a, b).
Proof.
  induction a as [|c r IH]; simpl.
  - intros _. by rewrite decide_True.
  - destruct (decide (c = sep)); [done|]. intros Hr. by rewrite (IH Hr).
Qed.

Lemma cut_None (sep : ascii) (s : string) :
  contains sep s = false → cut sep s = None.
Proof.
  induction s as [|c r IH]; simpl; [done|].
  destruct (decide (c = sep)); [done|]. intros Hr. by rewrite (IH Hr).
Qed.

Lemma cut_Some (sep : ascii) (s a b : string) :
  cut sep s = Some (a, b) →
  s = a +:+ String sep b ∧ contains sep a = false.
Proof.
  revert a. induction s as [|c r IH]; intros a; simpl; [done|].
  destruct (decide (c = sep)) as [->|Hc].
  - by intros [= <- <-].
  - destruct (cut sep r) as [[a' b']|] eqn:Hcut; [|done].
    intros [= <- <-]. destruct (IH a' eq_refl) as [-> Ha'].
    simpl. by rewrite decide_False.
Qed.

Lemma contains_cut (sep : ascii) (s : string) :
  contains sep s = true → ∃ a b, cut sep s = Some (a, b).
Proof.
  induction s as [|c r IH]; simpl; [done|].
  destruct (decide (c = sep)); [by eauto|].
  intros [a [b ->]]%IH. eauto.
Qed.

Lemma contains_app (sep : ascii) (a b : string) :
  contains sep (a +:+ String sep b) = true.
Proof.
  induction a as [|c r IH]; simpl; [by rewrite decide_True|].
  by destruct (decide (c = sep)).
Qed.

Lemma occurrences_app (sep : ascii) (a b : string) :
  occurrences sep (a +:+ b) = occurrences sep a + occurrences sep b.
Proof. induction a as [|c r IH]; simpl; [done|]. rewrite IH. lia. Qed.

Lemma occurrences_sep (sep : ascii) (a b : string) :
  contains sep a = false →
  occurrences sep (a +:+ String sep b) = S (occurrences sep b).
Proof.
  intros Ha%contains_occurrences. rewrite occurrences_app, Ha. simpl.
  by rewrite decide_True.
Qed.

Lemma split1_app (sep : ascii) (a b : string) :
  contains sep a = false → split1 sep (a +:+ String sep b) = [a; b].
Proof. intros Ha. unfold split1. by rewrite cut_app. Qed.

(** ** Reference resolution *)

Lemma resolve_dollar_plain (h : heap) (context : loc) (ref : string) :
  contains "." ref = false →
  resolve h context (VStr (String "$" ref))
  = Returns (dict_get (deref h context) ref VNone).
Proof.
  intros Hdot. unfold resolve. rewrite prefix_dollar. simpl str_drop.
  by rewrite Hdot.
Qed.

Lemma resolve_dollar_dotted (h : heap) (context : loc)
    (step_name output_key : string) :
  contains "." step_name = false →
  resolve h context (VStr (String "$" (step_name +:+ String "." output_key)))
  = lookup_output h context step_name output_key.
Proof.
  intros Hdot. unfold resolve. rewrite prefix_dollar. simpl str_drop.
  by rewrite contains_app, split1_app.
Qed.

Lemma lookup_output_missing_step (h : heap) (context : loc)
    (step_name output_key : string) :
  deref h context !! step_name = None →
  lookup_output h context step_name output_key = Returns VNone.
Proof. intros Hs. unfold lookup_output. by rewrite Hs. Qed.

Lemma lookup_output_dict (h : heap) (context : loc)
    (step_name output_key : string) (l : loc) :
  deref h context !! step_name = Some (VRef l) →
  lookup_output h context step_name output_key
  = Returns (dict_get (deref h l) output_key VNone).
Proof. intros Hs. unfold lookup_output. by rewrite Hs. Qed.

Lemma resolve_dollar_cases (h : heap) (context : loc) (ref : string) :
  (contains "." ref = false
   ∧ resolve h context (VStr (String "$" ref))
     = Returns (dict_get (deref h context) ref VNone))
  ∨ (∃ step_name output_key,
       ref = step_name +:+ String "." output_key
       ∧ contains "." step_name = false
       ∧ split1 "." ref = [step_name; output_key]
       ∧ resolve h context (VStr (String "$" ref))
         = lookup_output h context step_name output_key).
Proof.
  destruct (contains "." ref) eqn:Hdot.
  - right. destruct (contains_cut _ _ Hdot) as (a & b & Hcut).
    destruct (cut_Some _ _ _ _ Hcut) as [-> Ha].
    exists a, b. split_and!; [done|done|by apply split1_app|].
    by apply resolve_dollar_dotted.
  - left. split; [done|]. by apply resolve_dollar_plain.
Qed.

(** C3: a reference whose [ref] part contains a dot is split at the first
    dot only: the step name is the text before it and has no dot, the
    output key is everything after it, with all the dots that remain;
    ["$a.y.z"] is split into ["a"] and ["y.z"]. *)
Theorem C3_split_on_first_dot (ref : string) :
  contains "." ref = true →
  (∃ step_name output_key,
     split1 "." ref = [step_name; output_key]
     ∧ ref = step_name +:+ String "." output_key
     ∧ contains "." step_name = false
     ∧ occurrences "." ref = S (occurrences "." output_key)
     ∧ ∀ h context,
         resolve h context (VStr (String "$" ref))
         = lookup_output h context step_name output_key)
  ∧ split1 "." "a.y.z" = ["a"; "y.z"].
Proof.
  intros Hdot. split; [|done].
  destruct (contains_cut _ _ Hdot) as (a & b & Hcut).
  destruct (cut_Some _ _ _ _ Hcut) as [-> Ha].
  exists a, b. split_and!; [by apply split1_app|done|done| |].
  - by apply occurrences_sep.
  - intros h context. by apply resolve_dollar_dotted.
Qed.

Lemma C3_split_on_first_dot_witness :
  contains "." "a.y.z" = true
  ∧ ∃ step_name output_key,
      split1 "." "a.y.z" = [step_name; output_key]
      ∧ "a.y.z" = step_name +:+ String "." output_key.
Proof.
  split; [reflexivity|].
  destruct (proj1 (C3_split_on_first_dot "a.y.z" eq_refl))
    as (step_name & output_key & Hsplit & Href & _).
  exists step_name, output_key. by split.
Defined.

(** ** Literal bindings and the resolved arguments *)

Lemma resolve_literal (h : heap) (context : loc) (v : val) :
  literal v → resolve h context v = Returns v.
Proof.
  intros Hlit. destruct v as [| | |s| |]; try done.
  unfold resolve. by rewrite (Hlit s eq_refl).
Qed.

Lemma not_literal_dollar (ref : string) : ¬ literal (VStr (String "$" ref)).
Proof. intros Hlit. specialize (Hlit _ eq_refl). by rewrite prefix_dollar in Hlit. Qed.

(** Bindings whose key is not iterated keep what [resolved_inputs] had. *)
Lemma resolve_inputs_other (h : heap) (context : loc)
    (items : list (string * val)) (acc kw : gmap string val) (key : string) :
  key ∉ items.*1 →
  Step.resolve_inputs h context items acc = Returns kw →
  kw !! key = acc !! key.
Proof.
  revert acc. induction items as [|[k v] rest IH]; intros acc Hnot Hkw.
  - by injection Hkw as <-.
  - rewrite fmap_cons in Hnot. apply not_elem_of_cons in Hnot as [Hk Hrest].
    cbn [Step.resolve_inputs] in Hkw.
    destruct (resolve h context v) as [r|e]; [|done].
    rewrite (IH _ Hrest Hkw). by rewrite lookup_insert_ne.
Qed.

(** With one binding per key, as in any dictionary, each argument is the
    resolution of the value bound to its key. *)
Lemma resolve_inputs_lookup (h : heap) (context : loc)
    (items : list (string * val)) (acc kw : gmap string val)
    (key : string) (v : val) :
  NoDup items.*1 →
  (key, v) ∈ items →
  Step.resolve_inputs h context items acc = Returns kw →
  ∃ r, resolve h context v = Returns r ∧ kw !! key = Some r.
Proof.
  revert acc. induction items as [|[k w] rest IH]; intros acc Hnd Hin Hkw.
  - by apply elem_of_nil in Hin.
  - rewrite fmap_cons in Hnd. apply NoDup_cons in Hnd as [Hk Hnd].
    cbn [Step.resolve_inputs] in Hkw.
    destruct (resolve h context w) as [r|e] eqn:Hres; [|done].
    apply elem_of_cons in Hin as [[= -> ->]|Hin].
    + exists r. split; [done|]. cbn [fst] in Hk.
      rewrite (resolve_inputs_other _ _ _ _ _ _ Hk Hkw).
      by rewrite lookup_insert_eq.
    + by apply (IH _ Hnd Hin Hkw).
Qed.

Lemma step_run_calls_action (self : Step.t) (context : loc) (h : heap)
    (kw : gmap string val) :
  Step.resolve_inputs h context (Step.inputs self) ∅ = Returns kw →
  Step.run self context h
  = (result (Step.action self kw h), writes (Step.action self kw h) ∪ h).
Proof. intros Hkw. unfold Step.run. by rewrite Hkw. Qed.



(** ** References, as [Step.run] binds them *)

Lemma step_run_raise_resolution (s : Step.t) (context : loc) (h : heap) (e : string) :
  Step.resolve_inputs h context (Step.inputs s) ∅ = Raises e →
  Step.run s context h = (Raises e, h).
Proof. intros He. unfold Step.run. by rewrite He. Qed.

Lemma resolve_inputs_returns (h : heap) (context : loc)
    (items : list (string * val)) (acc : gmap string val) :
  Forall (λ binding, is_raise (resolve h context binding.2) = false) items →
  ∃ resolved, Step.resolve_inputs h context items acc = Returns resolved.
Proof.
  revert acc. induction items as [|[key v] rest IH]; intros acc Hok.
  - by eexists.
  - apply Forall_cons in Hok as [Hv Hok]. cbn [Step.resolve_inputs].
    cbn in Hv. destruct (resolve h context v) as [r|e]; [|done]. by apply IH.
Qed.

Lemma py_get_scalar (h : heap) (v : val) (key : string) :
  scalar v → py_get h v key = Raises (no_attribute v "get").
Proof. by destruct v. Qed.

Lemma lookup_output_scalar (h : heap) (context : loc)
    (step_name output_key : string) (v : val) :
  deref h context !! step_name = Some v → scalar v →
  lookup_output h context step_name output_key = Raises (no_attribute v "get").
Proof. intros Hv Hs. unfold lookup_output. rewrite Hv. by apply py_get_scalar. Qed.

(** A binding whose lookup raises makes the resolution of the inputs
    raise. *)
Lemma resolve_inputs_raises (h : heap) (context : loc)
    (items : list (string * val)) (acc : gmap string val)
    (key : string) (v : val) (e : string) :
  (key, v) ∈ items →
  resolve h context v = Raises e →
  ∃ e', Step.resolve_inputs h context items acc = Raises e'.
Proof.
  revert acc. induction items as [|[k w] rest IH]; intros acc Hin Hv.
  - by apply elem_of_nil in Hin.
  - cbn [Step.resolve_inputs].
    apply elem_of_cons in Hin as [[= <- <-]|Hin].
    + rewrite Hv. by eexists.
    + destruct (resolve h context w) as [r|e0]; [by apply IH|by eexists].
Qed.

Lemma step_run_raises (self : Step.t) (context : loc) (h : heap)
    (key : string) (v : val) (e : string) :
  (key, v) ∈ Step.inputs self →
  resolve h context v = Raises e →
  ∃ e', Step.run self context h = (Raises e', h).
Proof.
  intros Hin Hv.
  destruct (resolve_inputs_raises h context _ ∅ key v e Hin Hv) as [e' He'].
  exists e'. by apply step_run_raise_resolution.
Qed.

(** What [Step.run] does with the binding of [key] to [v], with one
    binding per key: when the resolution of the inputs returns, the
    action is called with the looked-up value under [key]; it returns
    whenever no lookup raises. *)
Lemma step_run_binds (self : Step.t) (context : loc) (h : heap)
    (key : string) (v r : val) :
  NoDup (Step.inputs self).*1 →
  (key, v) ∈ Step.inputs self →
  resolve h context v = Returns r →
  (∀ kw, Step.resolve_inputs h context (Step.inputs self) ∅ = Returns kw →
     kw !! key = Some r
     ∧ Step.run self context h
       = (result (Step.action self kw h), writes (Step.action self kw h) ∪ h))
  ∧ (Forall (λ binding, is_raise (resolve h context binding.2) = false)
       (Step.inputs self) →
     ∃ kw, Step.resolve_inputs h context (Step.inputs self) ∅ = Returns kw
           ∧ kw !! key = Some r).
Proof.
  intros Hnd Hin Hr.
  assert (∀ kw, Step.resolve_inputs h context (Step.inputs self) ∅ = Returns kw →
                kw !! key = Some r) as Hbind.
  { intros kw Hkw.
    destruct (resolve_inputs_lookup _ _ _ _ _ _ _ Hnd Hin Hkw) as (r' & Hr' & ->).
    congruence. }
  split.
  - intros kw Hkw. split; [by apply Hbind|by apply step_run_calls_action].
  - intros Hok.
    destruct (resolve_inputs_returns h context (Step.inputs self) ∅ Hok)
      as [kw Hkw].
    exists kw. split; [done|by apply Hbind].
Qed.

(** C2, as the code has it.  For a value ["$" + ref]: without a dot in
    [ref] the lookup is [context.get(ref)] and does not raise; with a
    dot, [ref] is cut at the first dot and the lookup is
    [context.get(step_name, {}).get(output_key)], which gives [None] when
    the context has no entry [step_name] and when the entry is a
    dictionary without [output_key], and raises [AttributeError] when the
    entry is [None], a [bool], an [int] or a [str]: then [Step.run] raises
    and the action is not called.  When the lookup returns, [Step.run]
    (with one binding per key, as in any dictionary) calls the action with
    the value found bound to the key, and it reaches the call whenever no
    lookup of the step raises.  On the context [{"a": {"x": 1, "y": 2}}]
    the bindings ["$a"], ["$a.x"] and ["$missing.x"] become the mapping of
    [a], [1] and [None]. *)
Theorem C2_reference_resolution (self : Step.t) (h : heap) (context : loc)
    (key ref : string) :
  (contains "." ref = false →
     resolve h context (VStr (String "$" ref))
     = Returns (dict_get (deref h context) ref VNone))
  ∧ (∀ step_name output_key,
       ref = step_name +:+ String "." output_key →
       contains "." step_name = false →
       resolve h context (VStr (String "$" ref))
       = lookup_output h context step_name output_key
       ∧ (deref h context !! step_name = None →
            resolve h context (VStr (String "$" ref)) = Returns VNone)
       ∧ (∀ l, deref h context !! step_name = Some (VRef l) →
            resolve h context (VStr (String "$" ref))
            = Returns (dict_get (deref h l) output_key VNone)
            ∧ (deref h l !! output_key = None →
                 resolve h context (VStr (String "$" ref)) = Returns VNone))
       ∧ (∀ v, deref h context !! step_name = Some v → scalar v →
            resolve h context (VStr (String "$" ref))
            = Raises ("'" +:+ type_name v +:+ "' object has no attribute 'get'")
            ∧ ((key, VStr (String "$" ref)) ∈ Step.inputs self →
               ∃ e, Step.run self context h = (Raises e, h))))
  ∧ (NoDup (Step.inputs self).*1 →
     (key, VStr (String "$" ref)) ∈ Step.inputs self →
     ∀ r, resolve h context (VStr (String "$" ref)) = Returns r →
       (∀ kw, Step.resolve_inputs h context (Step.inputs self) ∅ = Returns kw →
          kw !! key = Some r
          ∧ Step.run self context h
            = (result (Step.action self kw h),
               writes (Step.action self kw h) ∪ h))
       ∧ (Forall (λ binding, is_raise (resolve h context binding.2) = false)
            (Step.inputs self) →
          ∃ kw, Step.resolve_inputs h context (Step.inputs self) ∅ = Returns kw
                ∧ kw !! key = Some r))
  ∧ (Step.resolve_inputs example_store 0 (Step.inputs probe) ∅
     = Returns (<["whole" := VRef 1]>
                  (<["one" := VInt 1]> {["none" := VNone]}))
     ∧ deref example_store 0 = {["a" := VRef 1]}
     ∧ deref example_store 1 = <["x" := VInt 1]> {["y" := VInt 2]}).
Proof.
  split_and!.
  - apply resolve_dollar_plain.
  - intros step_name output_key -> Hdot.
    rewrite resolve_dollar_dotted by done. split_and!.
    + done.
    + apply lookup_output_missing_step.
    + intros l Hl. rewrite (lookup_output_dict _ _ _ _ _ Hl).
      split; [done|]. intros Hk. unfold dict_get. by rewrite Hk.
    + intros v Hv Hs.
      assert (resolve h context
                (VStr (String "$" (step_name +:+ String "." output_key)))
              = Raises (no_attribute v "get")) as Hres.
      { rewrite resolve_dollar_dotted by done. by apply lookup_output_scalar. }
      split; [by apply lookup_output_scalar|].
      intros Hin. by apply (step_run_raises self context h key _ _ Hin Hres).
  - intros Hnd Hin r Hr.
    by apply (step_run_binds self context h key (VStr (String "$" ref)) r).
  - reflexivity.
  - reflexivity.
  - reflexivity.
Qed.

Lemma C2_reference_resolution_witness :
  NoDup (Step.inputs probe).*1
  ∧ ("one", VStr "$a.x") ∈ Step.inputs probe
  ∧ resolve example_store 0 (VStr "$a.x") = Returns (VInt 1)
  ∧ Forall (λ binding, is_raise (resolve example_store 0 binding.2) = false)
      (Step.inputs probe)
  ∧ ∃ kw, Step.resolve_inputs example_store 0 (Step.inputs probe) ∅ = Returns kw
          ∧ kw !! "one" = Some (VInt 1).
Proof.
  assert (NoDup (Step.inputs probe).*1) as Hnd.
  { cbn. repeat constructor; set_solver. }
  assert (("one", VStr "$a.x") ∈ Step.inputs probe) as Hin.
  { cbn. set_solver. }
  assert (Forall (λ binding, is_raise (resolve example_store 0 binding.2) = false)
            (Step.inputs probe)) as Hok.
  { repeat constructor. }
  split_and!; [exact Hnd|exact Hin|reflexivity|exact Hok|].
  exact (proj2 (proj1 (proj2 (proj2
           (C2_reference_resolution probe example_store 0 "one" "a.x")))
           Hnd Hin (VInt 1) eq_refl) Hok).
Defined.

(** A reference into ["_pipeline"], which is not the name of a step: in
    the context that [run] prepares the entry is a string, and [Step.run]
    raises [AttributeError] where a missing step would give [None]. *)
Lemma C2_stamp_reference_raises :
  let read := Step.mk "read" (returning ∅) [("x", VStr "$_pipeline.x")] [] in
  let context := Pipeline.run_context stamp_reader None "t0" ∅ in
  let h0 := (Pipeline.init stamp_reader None "t0" ∅).2 in
  Pipeline.steps stamp_reader = [read]
  ∧ deref h0 context !! "_pipeline" = Some (VStr "reader")
  ∧ resolve h0 context (VStr "$_pipeline.x")
    = Raises "'str' object has no attribute 'get'"
  ∧ Step.run read context h0
    = (Raises "'str' object has no attribute 'get'", h0)
  ∧ Pipeline.run_trace stamp_reader None "t0" ∅
    = [(read, Raises "'str' object has no attribute 'get'")].
Proof. intros read context h0. split_and!; reflexivity. Qed.

(** ** No escape for ["$"] *)



(** ** The store *)

Lemma deref_setitem (h : heap) (l : loc) (key : string) (v : val) :
  deref (setitem h l key v) l = <[key := v]> (deref h l).
Proof. unfold deref at 1, setitem. by rewrite lookup_insert_eq. Qed.

Lemma lookup_setitem_ne (h : heap) (l l' : loc) (key : string) (v : val) :
  l ≠ l' → setitem h l key v !! l' = h !! l'.
Proof. intros Hne. unfold setitem. by rewrite lookup_insert_ne. Qed.

Lemma deref_setitem_ne (h : heap) (l l' : loc) (key : string) (v : val) :
  l ≠ l' → deref (setitem h l key v) l' = deref h l'.
Proof. intros Hne. unfold deref. by rewrite lookup_setitem_ne. Qed.

Lemma dom_setitem (h : heap) (l : loc) (key : string) (v : val) :
  dom (setitem h l key v) = {[l]} ∪ dom h.
Proof. unfold setitem. by rewrite dom_insert_L. Qed.

Lemma alloc_fresh (h : heap) (d : gmap string val) :
  (alloc h d).1 ∉ dom h.
Proof. apply is_fresh. Qed.

Lemma step_run_dom (s : Step.t) (context : loc) (h : heap) :
  dom h ⊆ dom (Step.run s context h).2.
Proof.
  unfold Step.run. destruct (Step.resolve_inputs _ _ _ _); simpl; [|done].
  rewrite dom_union_L. set_solver.
Qed.

Lemma step_run_quiet (s : Step.t) (context l : loc) (h : heap) :
  l ∈ dom h → quiet l s → (Step.run s context h).2 !! l = h !! l.
Proof.
  intros Hl Hq. unfold Step.run.
  destruct (Step.resolve_inputs _ _ _ _) as [kw|e]; simpl; [|done].
  rewrite lookup_union_r; [done|]. by apply Hq.
Qed.

(** ** The trace *)

Lemma trace_fst (context : loc) (steps : list Step.t) (h : heap) :
  (Pipeline.trace context steps h).*1
  = take (length (Pipeline.trace context steps h)) steps.
Proof.
  revert h. induction steps as [|step rest IH]; intros h; [done|].
  cbn [Pipeline.trace].
  destruct (Step.run step context h) as [[v|e] h1]; [|done].
  cbn. by rewrite IH.
Qed.

Lemma trace_lookup_step (context : loc) (steps : list Step.t) (h : heap)
    (j : nat) (s : Step.t) (o : outcome val) :
  Pipeline.trace context steps h !! j = Some (s, o) → steps !! j = Some s.
Proof.
  intros Hj.
  assert ((Pipeline.trace context steps h).*1 !! j = Some s) as Hs.
  { by rewrite list_lookup_fmap, Hj. }
  rewrite trace_fst in Hs. by apply lookup_take_Some in Hs as [? _].
Qed.

Lemma trace_raise_last (context : loc) (steps : list Step.t) (h : heap)
    (i : nat) (s : Step.t) (e : string) :
  Pipeline.trace context steps h !! i = Some (s, Raises e) →
  length (Pipeline.trace context steps h) = S i.
Proof.
  revert h i. induction steps as [|step rest IH]; intros h i; [done|].
  cbn [Pipeline.trace].
  destruct (Step.run step context h) as [[v|e'] h1].
  - destruct i as [|i]; [done|]. cbn. intros Hi. by rewrite (IH _ _ Hi).
  - destruct i as [|i]; [done|]. by destruct i.
Qed.

Lemma trace_returns_before (context : loc) (steps : list Step.t) (h : heap)
    (i j : nat) (s sj : Step.t) (e : string) (o : outcome val) :
  Pipeline.trace context steps h !! i = Some (s, Raises e) →
  Pipeline.trace context steps h !! j = Some (sj, o) →
  j < i → ∃ result, o = Returns result.
Proof.
  revert h i j. induction steps as [|step rest IH]; intros h i j; [done|].
  cbn [Pipeline.trace].
  destruct (Step.run step context h) as [[v|e'] h1].
  - destruct i as [|i]; [done|]. destruct j as [|j].
    + intros _ [= <- <-] _. by eauto.
    + cbn. intros Hi Hj Hlt. apply (IH _ _ _ Hi Hj). lia.
  - destruct i as [|i]; [lia|]. by destruct i.
Qed.

Lemma trace_length (context : loc) (steps : list Step.t) (h : heap) :
  (length (Pipeline.trace context steps h) ≤ length steps)%nat.
Proof.
  revert h. induction steps as [|step rest IH]; intros h; [done|].
  cbn [Pipeline.trace].
  destruct (Step.run step context h) as [[v|e] h1]; cbn; [|lia].
  specialize (IH (setitem h1 context (Step.name step) v)). lia.
Qed.

(** ** The loop *)

Lemma loop_dom_store (context : loc) (steps : list Step.t)
    (results : gmap string val) (h : heap) :
  dom h ⊆ dom (Pipeline.loop context steps results h).2.
Proof.
  revert results h. induction steps as [|step rest IH]; intros results h; [done|].
  cbn [Pipeline.loop]. pose proof (step_run_dom step context h) as Hdom.
  destruct (Step.run step context h) as [[v|e] h1]; simpl in Hdom.
  - etrans; [|apply IH]. rewrite dom_setitem. set_solver.
  - unfold alloc. simpl. rewrite dom_setitem, dom_insert_L. set_solver.
Qed.

Lemma loop_results_dom (context : loc) (steps : list Step.t)
    (results : gmap string val) (h : heap) :
  dom (Pipeline.loop context steps results h).1
  = dom results
    ∪ list_to_set (Step.name <$> (Pipeline.trace context steps h).*1).
Proof.
  revert results h. induction steps as [|step rest IH]; intros results h.
  - simpl. set_solver.
  - cbn [Pipeline.loop Pipeline.trace].
    destruct (Step.run step context h) as [[v|e] h1].
    + rewrite IH, dom_insert_L. cbn. set_solver.
    + unfold alloc. cbn. rewrite dom_insert_L. set_solver.
Qed.

Lemma loop_results_other (context : loc) (steps : list Step.t)
    (results : gmap string val) (h : heap) (key : string) :
  key ∉ Step.name <$> (Pipeline.trace context steps h).*1 →
  (Pipeline.loop context steps results h).1 !! key = results !! key.
Proof.
  intros Hkey. apply option_eq. intros v.
  pose proof (loop_results_dom context steps results h) as Hdom.
  revert results h Hkey Hdom.
  induction steps as [|step rest IH]; intros results h Hkey _; [done|].
  revert Hkey. cbn [Pipeline.loop Pipeline.trace].
  destruct (Step.run step context h) as [[r|e] h1]; cbn; intros Hkey.
  - apply not_elem_of_cons in Hkey as [Hne Hkey].
    rewrite IH; [|done|apply loop_results_dom]. by rewrite lookup_insert_ne.
  - apply not_elem_of_cons in Hkey as [Hne _]. by rewrite lookup_insert_ne.
Qed.

(** The entry of a step that no later executed step overwrites; the
    dictionary of an error entry is not the context, so later writes to the
    context leave it alone. *)
Lemma loop_results_entry (context : loc) (steps : list Step.t)
    (results : gmap string val) (h : heap)
    (j : nat) (s : Step.t) (o : outcome val) :
  context ∈ dom h →
  Pipeline.trace context steps h !! j = Some (s, o) →
  (∀ j' s' o', j < j' →
     Pipeline.trace context steps h !! j' = Some (s', o') →
     Step.name s' ≠ Step.name s) →
  ∃ v, (Pipeline.loop context steps results h).1 !! Step.name s = Some v
       ∧ ∀ key w,
           entry_of (setitem (Pipeline.loop context steps results h).2
                       context key w) o v.
Proof.
  revert results h j. induction steps as [|step rest IH];
    intros results h j Hctx; [done|].
  cbn [Pipeline.loop Pipeline.trace].
  pose proof (step_run_dom step context h) as Hdom.
  destruct (Step.run step context h) as [[r|e] h1]; simpl in Hdom.
  - destruct j as [|j].
    + intros [= <- <-] Hlater. exists r. split; [|done].
      rewrite loop_results_other; [by rewrite lookup_insert_eq|].
      intros (s' & Hname & [[s'' o'] [[= <-] Hin]]%list_elem_of_fmap)%list_elem_of_fmap.
      apply list_elem_of_lookup in Hin as [j' Hj'].
      apply (Hlater (S j') s' o'); [lia|done|done].
    + cbn. intros Hj Hlater. apply (IH _ _ j); [|done|].
      * rewrite dom_setitem. set_solver.
      * intros j' s' o' Hlt Hj'. apply (Hlater (S j') s' o'); [lia|done].
  - destruct j as [|j]; [|by destruct j].
    intros [= <- <-] _. unfold alloc. cbn.
    exists (VRef (fresh (dom h1))). split; [by rewrite lookup_insert_eq|].
    intros key w. exists (fresh (dom h1)). split; [done|].
    assert (context ≠ fresh (dom h1)) as Hne.
    { intros Heq. apply (is_fresh (dom h1)). rewrite <- Heq. set_solver. }
    rewrite !lookup_setitem_ne by done. by rewrite lookup_insert_eq.
Qed.

Lemma loop_error (context : loc) (steps : list Step.t)
    (results : gmap string val) (h : heap)
    (i : nat) (s : Step.t) (e : string) :
  Pipeline.trace context steps h !! i = Some (s, Raises e) →
  deref (Pipeline.loop context steps results h).2 context !! "_error"
  = Some (VStr e).
Proof.
  revert results h i. induction steps as [|step rest IH];
    intros results h i; [done|].
  cbn [Pipeline.loop Pipeline.trace].
  destruct (Step.run step context h) as [[r|e'] h1].
  - destruct i as [|i]; [done|]. cbn. apply IH.
  - destruct i as [|i]; [|by destruct i].
    intros [= <- <-]. unfold alloc. cbn.
    by rewrite deref_setitem, lookup_insert_eq.
Qed.

(** When no action writes the context, the loop leaves in it exactly what
    it recorded, iteration by iteration. *)
Lemma loop_context (context : loc) (steps : list Step.t)
    (results : gmap string val) (h : heap) :
  context ∈ dom h →
  Forall (quiet context) steps →
  deref (Pipeline.loop context steps results h).2 context
  = recorded (Pipeline.trace context steps h) (deref h context).
Proof.
  revert results h. induction steps as [|step rest IH];
    intros results h Hctx Hquiet; [done|].
  apply Forall_cons in Hquiet as [Hq Hquiet].
  cbn [Pipeline.loop Pipeline.trace].
  pose proof (step_run_dom step context h) as Hdom.
  pose proof (step_run_quiet step context context h Hctx Hq) as Hsame.
  destruct (Step.run step context h) as [[r|e] h1]; simpl in Hdom, Hsame.
  - rewrite IH; [|rewrite dom_setitem; set_solver|done].
    rewrite deref_setitem. unfold deref. by rewrite Hsame.
  - unfold alloc. cbn. rewrite deref_setitem.
    assert (fresh (dom h1) ≠ context) as Hne.
    { intros Heq. apply (is_fresh (dom h1)). rewrite Heq. set_solver. }
    unfold record, deref. cbn. rewrite lookup_insert_ne by done.
    by rewrite Hsame.
Qed.

(** The loop writes the context, the dictionary of an error entry, which
    is new, and whatever the actions write; nothing else. *)
Lemma loop_frame (context l : loc) (steps : list Step.t)
    (results : gmap string val) (h : heap) :
  l ≠ context → l ∈ dom h →
  Forall (quiet l) steps →
  (Pipeline.loop context steps results h).2 !! l = h !! l.
Proof.
  intros Hne. revert results h. induction steps as [|step rest IH];
    intros results h Hl Hquiet; [done|].
  apply Forall_cons in Hquiet as [Hq Hquiet].
  cbn [Pipeline.loop].
  pose proof (step_run_dom step context h) as Hdom.
  pose proof (step_run_quiet step context l h Hl Hq) as Hsame.
  destruct (Step.run step context h) as [[r|e] h1]; simpl in Hdom, Hsame.
  - rewrite IH; [|rewrite dom_setitem; set_solver|done].
    by rewrite lookup_setitem_ne.
  - unfold alloc. cbn. rewrite lookup_setitem_ne by done.
    assert (fresh (dom h1) ≠ l) as Hfresh.
    { intros Heq. apply (is_fresh (dom h1)). rewrite Heq. set_solver. }
    by rewrite lookup_insert_ne.
Qed.

Lemma trace_take (context : loc) (steps : list Step.t) (h : heap) (k : nat) :
  Pipeline.trace context (take k steps) h
  = take k (Pipeline.trace context steps h).
Proof.
  revert h k. induction steps as [|step rest IH]; intros h k.
  - by destruct k.
  - destruct k as [|k]; [done|]. cbn [take Pipeline.trace].
    destruct (Step.run step context h) as [[r|e] h1].
    + cbn. by rewrite IH.
    + cbn. by rewrite take_nil.
Qed.

(** ** Initialisation and the whole run *)

Lemma init_spec (p : Pipeline.t) (initial_context : option loc)
    (started : string) (h : heap) :
  let context := Pipeline.run_context p initial_context started h in
  let h0 := (Pipeline.init p initial_context started h).2 in
  context ∈ dom h0
  ∧ deref h0 context
    = <["_started" := VStr started]>
        (<["_pipeline" := VStr (Pipeline.name p)]> (seed initial_context h))
  ∧ dom h ⊆ dom h0
  ∧ (∀ l, l ≠ context → h0 !! l = h !! l).
Proof.
  unfold Pipeline.run_context, Pipeline.init, seed.
  destruct initial_context as [l|]; [destruct (decide (deref h l = ∅)) as [He|He]|];
    unfold alloc; cbn.
  - split_and!.
    + rewrite !dom_setitem. set_solver.
    + rewrite !deref_setitem, He. unfold deref. by rewrite lookup_insert_eq.
    + rewrite !dom_setitem, dom_insert_L. set_solver.
    + intros l' Hl'. rewrite !lookup_setitem_ne by done.
      by rewrite lookup_insert_ne.
  - split_and!.
    + rewrite !dom_setitem. set_solver.
    + by rewrite !deref_setitem.
    + rewrite !dom_setitem. set_solver.
    + intros l' Hl'. by rewrite !lookup_setitem_ne.
  - split_and!.
    + rewrite !dom_setitem. set_solver.
    + rewrite !deref_setitem. unfold deref. by rewrite lookup_insert_eq.
    + rewrite !dom_setitem, dom_insert_L. set_solver.
    + intros l' Hl'. rewrite !lookup_setitem_ne by done.
      by rewrite lookup_insert_ne.
Qed.

(** Which object the working context is. *)
Lemma init_context (p : Pipeline.t) (initial_context : option loc)
    (started : string) (h : heap) :
  Pipeline.run_context p initial_context started h
  = match initial_context with
    | Some l => if decide (deref h l = ∅) then fresh (dom h) else l
    | None => fresh (dom h)
    end.
Proof.
  unfold Pipeline.run_context, Pipeline.init.
  destruct initial_context as [l|]; [destruct (decide (deref h l = ∅))|]; done.
Qed.

Lemma run_unfold (p : Pipeline.t) (initial_context : option loc)
    (started completed : string) (h : heap) :
  let context := Pipeline.run_context p initial_context started h in
  let h0 := (Pipeline.init p initial_context started h).2 in
  Pipeline.run p initial_context started completed h
  = (<["_context" := VRef context]>
       (Pipeline.loop context (Pipeline.steps p) ∅ h0).1,
     setitem (Pipeline.loop context (Pipeline.steps p) ∅ h0).2
       context "_completed" (VStr completed))
  ∧ Pipeline.run_trace p initial_context started h
    = Pipeline.trace context (Pipeline.steps p) h0.
Proof.
  unfold Pipeline.run, Pipeline.run_trace, Pipeline.run_context.
  destruct (Pipeline.init p initial_context started h) as [context h0].
  cbn [fst snd].
  by destruct (Pipeline.loop context (Pipeline.steps p) ∅ h0).
Qed.

Lemma size_list_to_set_le (l : list string) :
  (size (list_to_set l : gset string) ≤ length l)%nat.
Proof.
  induction l as [|x l IH]; [done|]. cbn.
  rewrite size_union_alt, size_singleton.
  assert (size (list_to_set l ∖ {[x]} : gset string) ≤ size (list_to_set l : gset string))%nat.
  { apply subseteq_size. set_solver. }
  lia.
Qed.

(** The shape of what [run] returns, in terms of the trace of its loop. *)
Lemma run_results (p : Pipeline.t) (initial_context : option loc)
    (started completed : string) (h : heap) :
  let context := Pipeline.run_context p initial_context started h in
  let tr := Pipeline.run_trace p initial_context started h in
  let results := (Pipeline.run p initial_context started completed h).1 in
  let hf := (Pipeline.run p initial_context started completed h).2 in
  dom results = {["_context"]} ∪ list_to_set (Step.name <$> tr.*1)
  ∧ results !! "_context" = Some (VRef context)
  ∧ (∀ j s o,
       tr !! j = Some (s, o) →
       Step.name s ≠ "_context" →
       (∀ j' s' o', j < j' → tr !! j' = Some (s', o') →
          Step.name s' ≠ Step.name s) →
       ∃ v, results !! Step.name s = Some v ∧ entry_of hf o v)
  ∧ deref hf context !! "_completed" = Some (VStr completed)
  ∧ (∀ j s e, tr !! j = Some (s, Raises e) →
       deref hf context !! "_error" = Some (VStr e)).
Proof.
  intros context tr results hf.
  destruct (run_unfold p initial_context started completed h) as [Hrun Htr].
  destruct (init_spec p initial_context started h) as (Hctx & _ & _ & _).
  subst results hf tr. rewrite Hrun, Htr. cbn [fst snd]. split_and!.
  - rewrite dom_insert_L, loop_results_dom. set_solver.
  - by rewrite lookup_insert_eq.
  - intros j s o Hj Hname Hlater.
    destruct (loop_results_entry _ _ ∅ _ _ _ _ Hctx Hj Hlater) as (v & Hv & Hentry).
    exists v. split; [|done]. by rewrite lookup_insert_ne.
  - by rewrite deref_setitem, lookup_insert_eq.
  - intros j s e Hj. rewrite deref_setitem, lookup_insert_ne by done.
    by apply (loop_error _ _ _ _ j s).
Qed.

(** ** Failure of a step *)

(** C1: when the steps at indices [0..i-1] return and the step at index
    [i] raises an exception with message [e], [run] returns a mapping that
    has an entry for every step at an index up to [i], the entry of step
    [i] being a dictionary [{"error": e}], and no entry for a later step
    (entries are keyed by step name, so this is said of later steps whose
    name is not ["_context"] and not the name of a step that ran); the
    context it returns has ["_error"] bound to [e]. *)
Theorem C1_fail_fast (p : Pipeline.t) (initial_context : option loc)
    (started completed : string) (h : heap)
    (i : nat) (s : Step.t) (e : string) :
  Pipeline.run_trace p initial_context started h !! i = Some (s, Raises e) →
  let context := Pipeline.run_context p initial_context started h in
  let results := (Pipeline.run p initial_context started completed h).1 in
  let hf := (Pipeline.run p initial_context started completed h).2 in
  Pipeline.steps p !! i = Some s
  ∧ (∀ j sj, j < i → Pipeline.steps p !! j = Some sj →
       ∃ result, Pipeline.run_trace p initial_context started h !! j
                 = Some (sj, Returns result))
  ∧ (∀ j sj, (j ≤ i)%nat → Pipeline.steps p !! j = Some sj →
       is_Some (results !! Step.name sj))
  ∧ (Step.name s ≠ "_context" →
       ∃ err, results !! Step.name s = Some (VRef err)
              ∧ hf !! err = Some {["error" := VStr e]})
  ∧ (∀ j sj, i < j → Pipeline.steps p !! j = Some sj →
       Step.name sj ∉ "_context" :: (Step.name <$> take (S i) (Pipeline.steps p)) →
       results !! Step.name sj = None)
  ∧ results !! "_context" = Some (VRef context)
  ∧ deref hf context !! "_error" = Some (VStr e).
Proof.
  intros Hi context results hf.
  destruct (run_results p initial_context started completed h)
    as (Hdom & Hctx & Hentry & _ & Herr).
  fold context results hf in Hdom, Hctx, Hentry, Herr.
  destruct (run_unfold p initial_context started completed h) as [_ Htr].
  pose proof Hi as Hlen. rewrite Htr in Hlen.
  apply trace_raise_last in Hlen.
  assert ((Pipeline.run_trace p initial_context started h).*1
          = take (S i) (Pipeline.steps p)) as Hfst.
  { rewrite Htr, trace_fst. by rewrite Hlen. }
  rewrite Hfst in Hdom.
  split_and!.
  - rewrite Htr in Hi. by apply trace_lookup_step in Hi.
  - intros j sj Hlt Hsj.
    assert ((Pipeline.run_trace p initial_context started h).*1 !! j = Some sj)
      as Hj.
    { rewrite Hfst. apply lookup_take_Some. split; [done|lia]. }
    rewrite list_lookup_fmap in Hj.
    destruct (Pipeline.run_trace p initial_context started h !! j)
      as [[sj' o]|] eqn:Hoj; [|done].
    injection Hj as ->. rewrite Htr in Hi, Hoj.
    destruct (trace_returns_before _ _ _ _ _ _ _ _ _ Hi Hoj Hlt) as [r ->].
    by exists r.
  - intros j sj Hle Hsj. apply elem_of_dom. rewrite Hdom.
    apply elem_of_union_r, elem_of_list_to_set, list_elem_of_fmap.
    exists sj. split; [done|]. apply list_elem_of_lookup. exists j.
    apply lookup_take_Some. split; [done|lia].
  - intros Hname.
    destruct (Hentry i s (Raises e) Hi Hname) as (v & Hv & err & -> & Herrd).
    + intros j' s' o' Hlt Hj'. apply lookup_lt_Some in Hj'.
      rewrite Htr, Hlen in Hj'. lia.
    + by exists err.
  - intros j sj Hlt Hsj Hnot. apply not_elem_of_dom. rewrite Hdom.
    apply not_elem_of_cons in Hnot as [Hne Hnot]. set_solver.
  - done.
  - by apply (Herr i s).
Qed.

Lemma C1_fail_fast_witness :
  let results := (Pipeline.run four_steps None "t0" "t1" ∅).1 in
  let hf := (Pipeline.run four_steps None "t0" "t1" ∅).2 in
  (∃ err, results !! "two" = Some (VRef err)
          ∧ hf !! err = Some {["error" := VStr "boom"]})
  ∧ results !! "three" = None
  ∧ deref hf (Pipeline.run_context four_steps None "t0" ∅) !! "_error"
    = Some (VStr "boom").
Proof.
  pose proof (C1_fail_fast four_steps None "t0" "t1" ∅ 1
                (Step.mk "two" (raising "boom") [("n", VStr "$one.value")] [])
                "boom" eq_refl)
    as (_ & _ & _ & Herr & Hlater & _ & Hctx).
  split_and!.
  - apply Herr. discriminate.
  - apply (Hlater 2 (Step.mk "three" (returning {["value" := VInt 3]}) [] ["value"]));
      [lia|reflexivity|]. vm_compute. set_solver.
  - exact Hctx.
Defined.

Lemma trace_complete (context : loc) (steps : list Step.t) (h : heap) :
  failed (Pipeline.trace context steps h) = false →
  (Pipeline.trace context steps h).*1 = steps.
Proof.
  revert h. induction steps as [|step rest IH]; intros h; [done|].
  cbn [Pipeline.trace].
  destruct (Step.run step context h) as [[r|e] h1]; [|done].
  cbn. intros Hf. by rewrite IH.
Qed.

(** ** Exceptions of any class *)

Lemma any_step_run (s : Step.t) (context : loc) (h : heap) :
  AnyStep.run (any_step s) context h
  = (Completes (Step.run s context h).1, (Step.run s context h).2).
Proof.
  unfold AnyStep.run, Step.run. cbn.
  by destruct (Step.resolve_inputs h context (Step.inputs s) ∅).
Qed.

Lemma any_loop (context : loc) (steps : list Step.t)
    (results : gmap string val) (h : heap) :
  AnyPipeline.loop context (any_step <$> steps) results h
  = (Completes (Pipeline.loop context steps results h).1,
     (Pipeline.loop context steps results h).2).
Proof.
  revert results h. induction steps as [|s rest IH]; intros results h; [done|].
  cbn [fmap list_fmap AnyPipeline.loop Pipeline.loop].
  rewrite any_step_run.
  destruct (Step.run s context h) as [[r|e] h1]; cbn [fst snd].
  - apply IH.
  - done.
Qed.

Lemma any_init (p : Pipeline.t) (initial_context : option loc)
    (started : string) (h : heap) :
  AnyPipeline.init (any_pipeline p) initial_context started h
  = Pipeline.init p initial_context started h.
Proof. done. Qed.

(** For actions that raise instances of [Exception] only, the run is
    [Pipeline.run]. *)
Lemma any_run (p : Pipeline.t) (initial_context : option loc)
    (started completed : string) (h : heap) :
  AnyPipeline.run (any_pipeline p) initial_context started completed h
  = (Completes (Pipeline.run p initial_context started completed h).1,
     (Pipeline.run p initial_context started completed h).2).
Proof.
  unfold AnyPipeline.run, Pipeline.run. rewrite any_init.
  destruct (Pipeline.init p initial_context started h) as [context h0].
  cbn [AnyPipeline.steps any_pipeline]. rewrite any_loop.
  by destruct (Pipeline.loop context (Pipeline.steps p) ∅ h0).
Qed.

Lemma any_step_run_dom (s : AnyStep.t) (context : loc) (h : heap) :
  dom h ⊆ dom (AnyStep.run s context h).2.
Proof.
  unfold AnyStep.run.
  destruct (Step.resolve_inputs _ _ _ _); [|done].
  destruct (AnyStep.action s _ h); cbn; rewrite dom_union_L; set_solver.
Qed.

Lemma any_init_context (p : AnyPipeline.t) (initial_context : option loc)
    (started : string) (h : heap) :
  AnyPipeline.run_context p initial_context started h
  ∈ dom (AnyPipeline.init p initial_context started h).2.
Proof.
  unfold AnyPipeline.run_context, AnyPipeline.init.
  destruct initial_context as [l|]; [destruct (decide (deref h l = ∅))|];
    cbn; rewrite !dom_setitem; set_solver.
Qed.

(** An exception that is not an instance of [Exception] ends the loop. *)
Lemma any_loop_propagates (context : loc) (steps : list AnyStep.t)
    (results : gmap string val) (h : heap)
    (j : nat) (s : AnyStep.t) (exc : string) :
  AnyPipeline.trace context steps h !! j = Some (s, Propagates exc) →
  (AnyPipeline.loop context steps results h).1 = Propagates exc.
Proof.
  revert results h j. induction steps as [|step rest IH];
    intros results h j; [done|].
  cbn [AnyPipeline.loop AnyPipeline.trace].
  destruct (AnyStep.run step context h) as [[[r|e]|exc'] h1].
  - destruct j as [|j]; [done|]. cbn. apply IH.
  - destruct j as [|j]; [done|by destruct j].
  - destruct j as [|j]; [|by destruct j]. by intros [= <- <-].
Qed.

(** An instance of [Exception] ends the loop too, as data. *)
Lemma any_loop_raises (context : loc) (steps : list AnyStep.t)
    (results : gmap string val) (h : heap)
    (j : nat) (s : AnyStep.t) (e : string) :
  context ∈ dom h →
  AnyPipeline.trace context steps h !! j = Some (s, Completes (Raises e)) →
  ∃ results' hf err,
    AnyPipeline.loop context steps results h = (Completes results', hf)
    ∧ results' !! AnyStep.name s = Some (VRef err)
    ∧ hf !! err = Some {["error" := VStr e]}
    ∧ err ≠ context
    ∧ deref hf context !! "_error" = Some (VStr e).
Proof.
  revert results h j. induction steps as [|step rest IH];
    intros results h j Hctx; [done|].
  cbn [AnyPipeline.loop AnyPipeline.trace].
  pose proof (any_step_run_dom step context h) as Hdom.
  destruct (AnyStep.run step context h) as [[[r|e']|exc'] h1]; cbn in Hdom.
  - destruct j as [|j]; [done|]. cbn. apply IH.
    rewrite dom_setitem. set_solver.
  - destruct j as [|j]; [|by destruct j]. intros [= <- <-].
    unfold alloc. cbn.
    assert (fresh (dom h1) ≠ context) as Hne.
    { intros Heq. apply (is_fresh (dom h1)). rewrite Heq. set_solver. }
    eexists _, _, (fresh (dom h1)). split_and!; [done| | |done|].
    + by rewrite lookup_insert_eq.
    + rewrite lookup_setitem_ne by done. by rewrite lookup_insert_eq.
    + by rewrite deref_setitem, lookup_insert_eq.
  - destruct j as [|j]; [done|by destruct j].
Qed.

(** When every step returns, the loop ends with an entry for each. *)
Lemma any_loop_returns (context : loc) (steps : list AnyStep.t)
    (results : gmap string val) (h : heap) :
  Forall (λ entry, ∃ r, entry.2 = Completes (Returns r))
    (AnyPipeline.trace context steps h) →
  ∃ results' hf,
    AnyPipeline.loop context steps results h = (Completes results', hf)
    ∧ dom results ⊆ dom results'
    ∧ ∀ s, s ∈ steps → is_Some (results' !! AnyStep.name s).
Proof.
  revert results h. induction steps as [|step rest IH]; intros results h.
  - intros _. exists results, h. split_and!; [done|done|].
    intros s Hs. by apply elem_of_nil in Hs.
  - cbn [AnyPipeline.loop AnyPipeline.trace].
    destruct (AnyStep.run step context h) as [[[r|e']|exc'] h1].
    + intros Hall. apply Forall_cons in Hall as [_ Hall].
      destruct (IH (<[AnyStep.name step := r]> results) _ Hall)
        as (results' & hf & Hloop & Hsub & Hsteps).
      exists results', hf. rewrite dom_insert_L in Hsub.
      split_and!; [done|set_solver|].
      intros s [->|Hs]%elem_of_cons; [|by apply Hsteps].
      apply elem_of_dom. set_solver.
    + intros Hall. apply Forall_cons in Hall as [[r Hr] _]. discriminate Hr.
    + intros Hall. apply Forall_cons in Hall as [[r Hr] _]. discriminate Hr.
Qed.

(** C5, as the code has it.  An exception of a step that is an instance
    of [Exception] is the outcome [Raises e] of the step's [run]; the loop
    stores [str(e)] under ["_error"] in the context and a dictionary
    [{"error": e}] under the step's name in the results, and [run] returns
    the results, with the context under ["_context"].  An exception of
    another class ([asyncio.CancelledError], [KeyboardInterrupt],
    [SystemExit]) is not caught: it leaves [Step.run], the loop and
    [run], which returns nothing.  When every step returns, [run] returns
    an entry for each.  For actions that raise instances of [Exception]
    only, [run] always returns, and is [Pipeline.run].  (The calls of
    [print] are taken to succeed, here as everywhere.) *)
Theorem C5_errors_become_data (p : AnyPipeline.t)
    (initial_context : option loc) (started completed : string) (h : heap) :
  let context := AnyPipeline.run_context p initial_context started h in
  let tr := AnyPipeline.run_trace p initial_context started h in
  (∀ self l h' kw,
     Step.resolve_inputs h' l (AnyStep.inputs self) ∅ = Returns kw →
     (∀ eff, AnyStep.action self kw h' = Ordinary eff →
        AnyStep.run self l h' = (Completes (result eff), writes eff ∪ h'))
     ∧ (∀ exc written, AnyStep.action self kw h' = Escapes exc written →
          AnyStep.run self l h' = (Propagates exc, written ∪ h')))
  ∧ (∀ j s e,
       tr !! j = Some (s, Completes (Raises e)) →
       ∃ results hf,
         AnyPipeline.run p initial_context started completed h
         = (Completes results, hf)
         ∧ results !! "_context" = Some (VRef context)
         ∧ deref hf context !! "_error" = Some (VStr e)
         ∧ is_Some (results !! AnyStep.name s)
         ∧ (AnyStep.name s ≠ "_context" →
              ∃ err, results !! AnyStep.name s = Some (VRef err)
                     ∧ hf !! err = Some {["error" := VStr e]}))
  ∧ (∀ j s exc,
       tr !! j = Some (s, Propagates exc) →
       ∃ hf, AnyPipeline.run p initial_context started completed h
             = (Propagates exc, hf))
  ∧ (Forall (λ entry, ∃ r, entry.2 = Completes (Returns r)) tr →
       ∃ results hf,
         AnyPipeline.run p initial_context started completed h
         = (Completes results, hf)
         ∧ results !! "_context" = Some (VRef context)
         ∧ ∀ s, s ∈ AnyPipeline.steps p →
                is_Some (results !! AnyStep.name s))
  ∧ (∀ q, p = any_pipeline q →
       AnyPipeline.run p initial_context started completed h
       = (Completes (Pipeline.run q initial_context started completed h).1,
          (Pipeline.run q initial_context started completed h).2)).
Proof.
  intros context tr.
  assert (∀ q, p = any_pipeline q →
       AnyPipeline.run p initial_context started completed h
       = (Completes (Pipeline.run q initial_context started completed h).1,
          (Pipeline.run q initial_context started completed h).2)) as Hplain.
  { intros q ->. apply any_run. }
  pose proof (any_init_context p initial_context started h) as Hctx.
  fold context in Hctx. subst tr context. revert Hplain.
  unfold AnyPipeline.run, AnyPipeline.run_trace, AnyPipeline.run_context in *.
  destruct (AnyPipeline.init p initial_context started h) as [context h0].
  cbn [fst snd] in *. intros Hplain.
  split_and!; [| | | |exact Hplain].
  - intros self l h' kw Hkw. unfold AnyStep.run. rewrite Hkw.
    split; [by intros eff ->|by intros exc written ->].
  - intros j s e Hj.
    destruct (any_loop_raises context (AnyPipeline.steps p) ∅ h0 j s e Hctx Hj)
      as (results & hf & err & -> & Hres & Herr & Hne & Hmsg).
    eexists _, _. split_and!; [done| | | |].
    + by rewrite lookup_insert_eq.
    + rewrite deref_setitem, lookup_insert_ne by done. done.
    + destruct (decide (AnyStep.name s = "_context")) as [->|Hname].
      * by rewrite lookup_insert_eq.
      * rewrite lookup_insert_ne by done. by rewrite Hres.
    + intros Hname. exists err. rewrite lookup_insert_ne by done.
      split; [done|]. by rewrite lookup_setitem_ne.
  - intros j s exc Hj.
    pose proof (any_loop_propagates context (AnyPipeline.steps p) ∅ h0 j s exc Hj)
      as Hloop.
    destruct (AnyPipeline.loop context (AnyPipeline.steps p) ∅ h0)
      as [[results|exc'] hf]; [done|].
    cbn in Hloop. injection Hloop as ->. by eexists.
  - intros Hall.
    destruct (any_loop_returns context (AnyPipeline.steps p) ∅ h0 Hall)
      as (results & hf & -> & _ & Hsteps).
    eexists _, _. split_and!; [done| |].
    + by rewrite lookup_insert_eq.
    + intros s Hs. destruct (decide (AnyStep.name s = "_context")) as [->|Hname].
      * by rewrite lookup_insert_eq.
      * rewrite lookup_insert_ne by done. by apply Hsteps.
Qed.

Lemma C5_errors_become_data_witness :
  let two := any_step (Step.mk "two" (raising "boom") [("n", VStr "$one.value")] []) in
  AnyPipeline.run_trace any_four_steps None "t0" ∅ !! 1
  = Some (two, Completes (Raises "boom"))
  ∧ ∃ results hf,
      AnyPipeline.run any_four_steps None "t0" "t1" ∅ = (Completes results, hf)
      ∧ deref hf (AnyPipeline.run_context any_four_steps None "t0" ∅) !! "_error"
        = Some (VStr "boom")
      ∧ ∃ err, results !! "two" = Some (VRef err)
               ∧ hf !! err = Some {["error" := VStr "boom"]}.
Proof.
  intros two.
  assert (AnyPipeline.run_trace any_four_steps None "t0" ∅ !! 1
          = Some (two, Completes (Raises "boom"))) as Htr by reflexivity.
  split; [exact Htr|].
  destruct (proj1 (proj2 (C5_errors_become_data any_four_steps None "t0" "t1" ∅))
              1 two "boom" Htr)
    as (results & hf & Hrun & _ & Herr & _ & Hentry).
  exists results, hf. split; [exact Hrun|]. split; [exact Herr|].
  apply Hentry. discriminate.
Defined.

(** The action of the second step is cancelled: [CancelledError] is not
    an instance of [Exception], so [run] lets it through and returns
    nothing; the context is left with the entry of the first step, without
    ["_error"] and without ["_completed"]. *)
Lemma C5_cancellation_propagates :
  let context := AnyPipeline.run_context cancelled None "t0" ∅ in
  let out := AnyPipeline.run cancelled None "t0" "t1" ∅ in
  AnyPipeline.run_trace cancelled None "t0" ∅ !! 1
  = Some (AnyStep.mk "stop" cancelling [] [], Propagates "")
  ∧ out.1 = Propagates ""
  ∧ deref out.2 context !! "one" = Some (VRef 1)
  ∧ deref out.2 context !! "_error" = None
  ∧ deref out.2 context !! "_completed" = None.
Proof. intros context out. split_and!; reflexivity. Qed.

(** ** What the loop records in the context *)

Lemma recorded_cons (entry : Step.t * outcome val)
    (tr : list (Step.t * outcome val)) (d : gmap string val) :
  recorded (entry :: tr) d = recorded tr (record d entry).
Proof. done. Qed.

Lemma record_insert (d : gmap string val) (entry : Step.t * outcome val) :
  ∃ v, record d entry = <[written_key entry := v]> d
       ∧ v = match entry.2 with Returns result => result | Raises e => VStr e end.
Proof. destruct entry as [s [r|e]]; by eexists. Qed.

Lemma recorded_dom (tr : list (Step.t * outcome val)) (d : gmap string val) :
  dom (recorded tr d) = dom d ∪ list_to_set (written_key <$> tr).
Proof.
  revert d. induction tr as [|entry tr IH]; intros d.
  - cbn. set_solver.
  - rewrite recorded_cons, IH.
    destruct (record_insert d entry) as (v & -> & _).
    rewrite dom_insert_L. cbn. set_solver.
Qed.

Lemma recorded_lookup_other (tr : list (Step.t * outcome val))
    (d : gmap string val) (key : string) :
  key ∉ written_key <$> tr → recorded tr d !! key = d !! key.
Proof.
  revert d. induction tr as [|entry tr IH]; intros d Hkey; [done|].
  rewrite fmap_cons in Hkey. apply not_elem_of_cons in Hkey as [Hne Hkey].
  rewrite recorded_cons, IH by done.
  destruct (record_insert d entry) as (v & -> & _).
  by rewrite lookup_insert_ne.
Qed.

(** What an iteration wrote stays until a later iteration writes the same
    key. *)
Lemma recorded_lookup (tr : list (Step.t * outcome val))
    (d : gmap string val) (j : nat) (entry : Step.t * outcome val) :
  tr !! j = Some entry →
  (∀ j' entry', j < j' → tr !! j' = Some entry' →
     written_key entry' ≠ written_key entry) →
  recorded tr d !! written_key entry
  = Some (match entry.2 with Returns result => result | Raises e => VStr e end).
Proof.
  revert d j. induction tr as [|x tr IH]; intros d j Hj Hlater; [done|].
  rewrite recorded_cons. destruct j as [|j].
  - injection Hj as ->. rewrite recorded_lookup_other.
    + destruct (record_insert d entry) as (v & -> & ->).
      by rewrite lookup_insert_eq.
    + intros (entry' & Hkey & Hin)%list_elem_of_fmap.
      apply list_elem_of_lookup in Hin as [j' Hj'].
      by apply (Hlater (S j') entry'); [lia|done|].
  - apply (IH _ j); [done|].
    intros j' entry' Hlt Hj'. apply (Hlater (S j') entry'); [lia|done].
Qed.

(** The context at the end of a run in which no action writes it. *)
Lemma run_context_content (p : Pipeline.t) (initial_context : option loc)
    (started completed : string) (h : heap) :
  Forall (quiet (Pipeline.run_context p initial_context started h))
    (Pipeline.steps p) →
  deref (Pipeline.run p initial_context started completed h).2
    (Pipeline.run_context p initial_context started h)
  = <["_completed" := VStr completed]>
      (recorded (Pipeline.run_trace p initial_context started h)
         (<["_started" := VStr started]>
            (<["_pipeline" := VStr (Pipeline.name p)]>
               (seed initial_context h)))).
Proof.
  intros Hquiet.
  destruct (run_unfold p initial_context started completed h) as [-> ->].
  destruct (init_spec p initial_context started h) as (Hctx & Hinit & _ & _).
  cbn [snd]. rewrite deref_setitem, loop_context by done. by rewrite Hinit.
Qed.

Lemma returning_quiet (l : loc) (name : string) (d : gmap string val)
    (inputs : list (string * val)) (outputs : list string) :
  quiet l (Step.mk name (returning d) inputs outputs).
Proof.
  intros kw h Hl. cbn. apply lookup_singleton_ne.
  intros Heq. apply (is_fresh (dom h)). by rewrite Heq.
Qed.

Lemma raising_quiet (l : loc) (name e : string)
    (inputs : list (string * val)) (outputs : list string) :
  quiet l (Step.mk name (raising e) inputs outputs).
Proof. intros kw h Hl. done. Qed.

(** ** Shape of the results *)

(** C6: the mapping that [run] returns has one key per executed step and
    the key ["_context"], and nothing else.  ["_context"] holds the
    working context, which has ["_completed"], on failure ["_error"], and,
    as long as no action writes the context, ["_pipeline"] and
    ["_started"].  The entry of an executed step, when its name is not
    ["_context"] and no later executed step has the same name, is the
    result of the step or a dictionary [{"error": e}].  The executed steps
    are a prefix of the steps, so without ["_context"] there are at most
    as many entries as steps. *)
Theorem C6_result_shape (p : Pipeline.t) (initial_context : option loc)
    (started completed : string) (h : heap) :
  let context := Pipeline.run_context p initial_context started h in
  let tr := Pipeline.run_trace p initial_context started h in
  let results := (Pipeline.run p initial_context started completed h).1 in
  let hf := (Pipeline.run p initial_context started completed h).2 in
  dom results = {["_context"]} ∪ list_to_set (Step.name <$> tr.*1)
  ∧ tr.*1 = take (length tr) (Pipeline.steps p)
  ∧ results !! "_context" = Some (VRef context)
  ∧ (∀ j s o,
       tr !! j = Some (s, o) →
       Step.name s ≠ "_context" →
       (∀ j' s' o', j < j' → tr !! j' = Some (s', o') →
          Step.name s' ≠ Step.name s) →
       ∃ v, results !! Step.name s = Some v ∧ entry_of hf o v)
  ∧ deref hf context !! "_completed" = Some (VStr completed)
  ∧ (∀ j s e, tr !! j = Some (s, Raises e) →
       deref hf context !! "_error" = Some (VStr e))
  ∧ (Forall (quiet context) (Pipeline.steps p) →
       is_Some (deref hf context !! "_pipeline")
       ∧ is_Some (deref hf context !! "_started"))
  ∧ (size (delete "_context" results) ≤ length (Pipeline.steps p))%nat.
Proof.
  intros context tr results hf.
  destruct (run_results p initial_context started completed h)
    as (Hdom & Hctx & Hentry & Hdone & Herr).
  destruct (run_unfold p initial_context started completed h) as [_ Htr].
  fold context tr results hf in Hdom, Hctx, Hentry, Hdone, Herr, Htr.
  split_and!; [done| |done|done|done|done| |].
  - rewrite Htr. apply trace_fst.
  - intros Hquiet. subst hf context.
    rewrite (run_context_content _ _ _ _ _ Hquiet).
    rewrite <- !elem_of_dom, !dom_insert_L, recorded_dom, !dom_insert_L.
    set_solver.
  - rewrite <- size_dom, dom_delete_L, Hdom.
    assert (({["_context"]} ∪ list_to_set (Step.name <$> tr.*1)) ∖ {["_context"]}
            ⊆ (list_to_set (Step.name <$> tr.*1) : gset string)) as Hsub
      by set_solver.
    apply subseteq_size in Hsub. etrans; [exact Hsub|].
    etrans; [apply size_list_to_set_le|].
    rewrite !length_fmap, Htr. apply trace_length.
Qed.

Lemma C6_result_shape_witness :
  let context := Pipeline.run_context four_steps None "t0" ∅ in
  let hf := (Pipeline.run four_steps None "t0" "t1" ∅).2 in
  Forall (quiet context) (Pipeline.steps four_steps)
  ∧ is_Some (deref hf context !! "_pipeline")
  ∧ is_Some (deref hf context !! "_started").
Proof.
  assert (Forall (quiet (Pipeline.run_context four_steps None "t0" ∅))
            (Pipeline.steps four_steps)) as Hquiet.
  { repeat apply Forall_cons_2; try apply Forall_nil_2;
      first [apply returning_quiet | apply raising_quiet]. }
  split; [exact Hquiet|].
  exact (proj1 (proj2 (proj2 (proj2 (proj2 (proj2 (proj2
           (C6_result_shape four_steps None "t0" "t1" ∅))))))) Hquiet).
Defined.

(** ** The context *)

Lemma written_keys (tr : list (Step.t * outcome val)) :
  (list_to_set (written_key <$> tr) : gset string)
  = list_to_set (completed_steps tr).*1
    ∪ (if failed tr then {["_error"]} else ∅).
Proof.
  induction tr as [|[s [r|e]] tr IH]; cbn.
  - set_solver.
  - rewrite IH. set_solver.
  - rewrite IH. destruct (failed tr); set_solver.
Qed.

Lemma run_frame (p : Pipeline.t) (initial_context : option loc)
    (started completed : string) (h : heap) (l : loc) :
  l ∈ dom h →
  l ≠ Pipeline.run_context p initial_context started h →
  Forall (quiet l) (Pipeline.steps p) →
  (Pipeline.run p initial_context started completed h).2 !! l = h !! l.
Proof.
  intros Hl Hne Hquiet.
  destruct (run_unfold p initial_context started completed h) as [-> _].
  destruct (init_spec p initial_context started h) as (_ & _ & Hdom & Hother).
  cbn [snd]. rewrite lookup_setitem_ne by done.
  rewrite loop_frame; [by apply Hother|done|set_solver|done].
Qed.

(** C7: in a run whose actions do not write the context object, the
    context holds, after any number of iterations, what it started from
    (the caller's entries, ["_pipeline"], ["_started"]) and what the loop
    recorded: the result of each completed step under its name and, on
    failure, ["_error"]; after the run, ["_completed"] as well.  A
    completed step's entry is its result; the name of the failed step is
    not added.  [Step.run] writes nothing itself: the store after it is
    the store before it with the writes of the action. *)
Theorem C7_context_invariant (p : Pipeline.t) (initial_context : option loc)
    (started completed : string) (h : heap) :
  let context := Pipeline.run_context p initial_context started h in
  let tr := Pipeline.run_trace p initial_context started h in
  let h0 := (Pipeline.init p initial_context started h).2 in
  let results := (Pipeline.run p initial_context started completed h).1 in
  let hf := (Pipeline.run p initial_context started completed h).2 in
  let base := <["_started" := VStr started]>
                (<["_pipeline" := VStr (Pipeline.name p)]>
                   (seed initial_context h)) in
  Forall (quiet context) (Pipeline.steps p) →
  (∀ k, deref (Pipeline.loop context (take k (Pipeline.steps p)) ∅ h0).2 context
        = recorded (take k tr) base)
  ∧ deref hf context = <["_completed" := VStr completed]> (recorded tr base)
  ∧ dom (deref hf context)
    = dom (seed initial_context h)
      ∪ {["_pipeline"; "_started"; "_completed"]}
      ∪ list_to_set (completed_steps tr).*1
      ∪ (if failed tr then {["_error"]} else ∅)
  ∧ (∀ j s result,
       tr !! j = Some (s, Returns result) →
       Step.name s ∉ ["_completed"; "_error"] →
       (∀ j' s' result', j < j' → tr !! j' = Some (s', Returns result') →
          Step.name s' ≠ Step.name s) →
       deref hf context !! Step.name s = Some result)
  ∧ (∀ j s e,
       tr !! j = Some (s, Raises e) →
       is_Some (results !! Step.name s)
       ∧ (Step.name s ∉ dom (seed initial_context h) →
          Step.name s ∉ ["_pipeline"; "_started"; "_completed"; "_error"] →
          Step.name s ∉ (completed_steps tr).*1 →
          deref hf context !! Step.name s = None))
  ∧ (∀ s l h',
       ((Step.run s l h').2 = h'
        ∨ ∃ kw, (Step.run s l h').2 = writes (Step.action s kw h') ∪ h')
       ∧ (l ∈ dom h' → quiet l s → (Step.run s l h').2 !! l = h' !! l)).
Proof.
  intros context tr h0 results hf base Hquiet.
  destruct (run_unfold p initial_context started completed h) as [_ Htr].
  destruct (init_spec p initial_context started h) as (Hctx & Hinit & _ & _).
  fold context h0 base in Hctx, Hinit. fold context h0 tr in Htr.
  assert (deref hf context = <["_completed" := VStr completed]> (recorded tr base))
    as Hfinal by (by apply run_context_content).
  assert (dom (deref hf context)
          = dom (seed initial_context h)
            ∪ {["_pipeline"; "_started"; "_completed"]}
            ∪ list_to_set (completed_steps tr).*1
            ∪ (if failed tr then {["_error"]} else ∅)) as Hdom.
  { rewrite Hfinal, dom_insert_L, recorded_dom, written_keys.
    subst base. rewrite !dom_insert_L. set_solver. }
  split_and!; [|done|done| | |].
  - intros k. rewrite loop_context, trace_take, Hinit, <- Htr; [done|done|].
    by apply Forall_take.
  - intros j s result Hj Hname Hlater. rewrite Hfinal.
    apply not_elem_of_cons in Hname as [Hne1 Hname].
    apply not_elem_of_cons in Hname as [Hne2 _].
    rewrite lookup_insert_ne by done.
    apply (recorded_lookup tr base j (s, Returns result) Hj).
    intros j' [s' [r'|e']] Hlt Hj'; cbn.
    + by apply (Hlater j' s' r').
    + done.
  - intros j s e Hj. split.
    + destruct (run_results p initial_context started completed h)
        as (Hrdom & _).
      apply elem_of_dom. fold results tr in Hrdom. rewrite Hrdom.
      apply elem_of_union_r, elem_of_list_to_set, list_elem_of_fmap.
      exists s. split; [done|]. apply list_elem_of_fmap.
      exists (s, Raises e). split; [done|]. by apply list_elem_of_lookup_2 in Hj.
    + intros Hseed Hreserved Hcompleted. apply not_elem_of_dom. rewrite Hdom.
      destruct (failed tr); set_solver.
  - intros s l h'. split.
    + unfold Step.run.
      destruct (Step.resolve_inputs h' l (Step.inputs s) ∅) as [kw|e]; cbn;
        [right; by exists kw|by left].
    + apply step_run_quiet.
Qed.

Lemma C7_context_invariant_witness :
  let context := Pipeline.run_context four_steps None "t0" ∅ in
  let hf := (Pipeline.run four_steps None "t0" "t1" ∅).2 in
  Forall (quiet context) (Pipeline.steps four_steps)
  ∧ dom (deref hf context)
    = {["_pipeline"; "_started"; "_completed"; "one"; "_error"]}.
Proof.
  assert (Forall (quiet (Pipeline.run_context four_steps None "t0" ∅))
            (Pipeline.steps four_steps)) as Hquiet.
  { repeat apply Forall_cons_2; try apply Forall_nil_2;
      first [apply returning_quiet | apply raising_quiet]. }
  split; [exact Hquiet|].
  destruct (C7_context_invariant four_steps None "t0" "t1" ∅ Hquiet)
    as (_ & _ & Hdom & _).
  rewrite Hdom. cbn. set_solver.
Defined.

(** ** The caller's initial context *)

(** [run] given the non-empty dictionary at location 0 works on that very
    object: after the run the caller's dictionary has three more keys. *)
Lemma C8_caller_context_is_written :
  Pipeline.run_context no_steps (Some 0) "t0" caller_store = 0
  ∧ caller_store !! 0 = Some {["user" := VStr "ann"]}
  ∧ (Pipeline.run no_steps (Some 0) "t0" "t1" caller_store).2 !! 0
    = Some (<["_completed" := VStr "t1"]>
              (<["_started" := VStr "t0"]>
                 (<["_pipeline" := VStr "empty"]> {["user" := VStr "ann"]})))
  ∧ (Pipeline.run no_steps (Some 0) "t0" "t1" caller_store).2 !! 0
    ≠ caller_store !! 0.
Proof.
  split_and!; [done|done|by vm_compute|].
  intros Heq. apply (f_equal (λ o, o ≫= (.!! "_completed"))) in Heq.
  vm_compute in Heq. discriminate Heq.
Qed.

(** C8, as the code has it: no copy is made.  The working context is a new
    dictionary when [initial_context] is [None] or an empty dictionary, and
    then the caller's dictionary is left as it was, like every other
    object that is neither the context nor written by an action.  Given a
    non-empty dictionary, the working context is the caller's object: it
    is returned under ["_context"], and it holds ["_completed"] and, when
    no action writes it, its original entries under everything the run
    recorded. *)
Theorem C8_initial_context (p : Pipeline.t) (initial_context : option loc)
    (started completed : string) (h : heap) :
  let context := Pipeline.run_context p initial_context started h in
  let tr := Pipeline.run_trace p initial_context started h in
  let results := (Pipeline.run p initial_context started completed h).1 in
  let hf := (Pipeline.run p initial_context started completed h).2 in
  results !! "_context" = Some (VRef context)
  ∧ (∀ l, l ∈ dom h → l ≠ context → Forall (quiet l) (Pipeline.steps p) →
       hf !! l = h !! l)
  ∧ match initial_context with
    | None => context ∉ dom h
    | Some l =>
        l ∈ dom h →
        (deref h l = ∅ →
           (context ∉ dom h)
           ∧ (Forall (quiet l) (Pipeline.steps p) → hf !! l = h !! l))
        ∧ (deref h l ≠ ∅ →
             context = l
             ∧ deref hf l !! "_completed" = Some (VStr completed)
             ∧ (Forall (quiet l) (Pipeline.steps p) →
                  deref hf l
                  = <["_completed" := VStr completed]>
                      (recorded tr
                         (<["_started" := VStr started]>
                            (<["_pipeline" := VStr (Pipeline.name p)]>
                               (deref h l))))))
    end.
Proof.
  intros context tr results hf.
  destruct (run_results p initial_context started completed h)
    as (_ & Hctx & _ & Hdone & _).
  fold context results hf in Hctx, Hdone.
  pose proof (init_context p initial_context started h) as Hwhich.
  fold context in Hwhich.
  assert (∀ l, l ∈ dom h → l ≠ context → Forall (quiet l) (Pipeline.steps p) →
               hf !! l = h !! l) as Hframe.
  { intros l Hl Hne Hquiet. by apply run_frame. }
  split_and!; [done|done|].
  destruct initial_context as [l|].
  - intros Hl. split.
    + intros Hempty. rewrite decide_True in Hwhich by done.
      assert (context ∉ dom h) as Hfresh by (rewrite Hwhich; apply is_fresh).
      split; [done|]. intros Hquiet. apply Hframe; [done| |done].
      intros Heq. apply Hfresh. by rewrite <- Heq.
    + intros Hfull. rewrite decide_False in Hwhich by done.
      split_and!; [done|by rewrite <- Hwhich|].
      intros Hquiet. rewrite <- Hwhich in Hquiet.
      pose proof (run_context_content p (Some l) started completed h Hquiet)
        as Hcontent.
      fold context hf tr in Hcontent. by rewrite Hwhich in Hcontent.
  - rewrite Hwhich. apply is_fresh.
Qed.

Lemma C8_initial_context_witness :
  let hf := (Pipeline.run four_steps (Some 0) "t0" "t1" caller_store).2 in
  0 ∈ dom caller_store
  ∧ deref caller_store 0 ≠ ∅
  ∧ Pipeline.run_context four_steps (Some 0) "t0" caller_store = 0
  ∧ deref hf 0 !! "_completed" = Some (VStr "t1").
Proof.
  assert (0 ∈ dom caller_store) as Hdom by (vm_compute; set_solver).
  assert (deref caller_store 0 ≠ ∅) as Hfull.
  { intros Hempty. apply (f_equal (.!! "user")) in Hempty. discriminate Hempty. }
  split; [exact Hdom|]. split; [exact Hfull|].
  destruct (proj2 (proj2 (proj2 (C8_initial_context four_steps (Some 0)
                                   "t0" "t1" caller_store)) Hdom) Hfull)
    as (Hctx & Hdone & _).
  by split.
Defined.

(** ** Two runs of one pipeline *)

(** *** Correspondences *)

Lemma val_rel_mono (R R' : nat → nat → Prop) (v1 v2 : val) :
  (∀ l1 l2, R l1 l2 → R' l1 l2) → val_rel R v1 v2 → val_rel R' v1 v2.
Proof. intros Hsub. destruct v1, v2; cbn; auto. Qed.

Lemma val_rel_scalar (R : nat → nat → Prop) (v : val) :
  (∀ l, v ≠ VRef l) → val_rel R v v.
Proof. intros Hv. destruct v; try done. by destruct (Hv l). Qed.

Lemma dict_rel_mono (R R' : nat → nat → Prop) (d1 d2 : gmap string val) :
  (∀ l1 l2, R l1 l2 → R' l1 l2) → dict_rel R d1 d2 → dict_rel R' d1 d2.
Proof.
  intros Hsub Hd key. destruct (Hd key); constructor.
  by apply (val_rel_mono R).
Qed.

Lemma dict_rel_insert (R : nat → nat → Prop) (d1 d2 : gmap string val)
    (key : string) (v1 v2 : val) :
  dict_rel R d1 d2 → val_rel R v1 v2 →
  dict_rel R (<[key := v1]> d1) (<[key := v2]> d2).
Proof.
  intros Hd Hv k. destruct (decide (key = k)) as [->|Hne].
  - rewrite !lookup_insert_eq. by constructor.
  - rewrite !lookup_insert_ne by done. apply Hd.
Qed.

Lemma dict_rel_empty (R : nat → nat → Prop) : dict_rel R ∅ ∅.
Proof. intros key. rewrite !lookup_empty. constructor. Qed.

Lemma dict_rel_get (R : nat → nat → Prop) (d1 d2 : gmap string val) (key : string) :
  dict_rel R d1 d2 → val_rel R (dict_get d1 key VNone) (dict_get d2 key VNone).
Proof. intros Hd. unfold dict_get. by destruct (Hd key). Qed.

Lemma extend_incl (R : nat → nat → Prop) (a b : nat) :
  ∀ l1 l2, R l1 l2 → extend R a b l1 l2.
Proof. intros l1 l2 HR. by left. Qed.

(** *** Two stores in correspondence *)

Section related_stores.

Context (R : nat → nat → Prop) (h1 h2 : heap).
Hypothesis Hst : store_rel R h1 h2.

(** Related values have the same structure at every depth. *)
Lemma view_rel (n : nat) (v1 v2 : val) :
  val_rel R v1 v2 → view n h1 v1 = view n h2 v2.
Proof.
  revert v1 v2. induction n as [|n IH]; intros v1 v2 Hv.
  - destruct v1, v2; cbn in *; try done; by f_equal.
  - destruct v1, v2; cbn in *; try done; try by f_equal.
    f_equal. apply map_eq. intros key. rewrite !lookup_fmap.
    destruct (rel_content _ _ _ Hst _ _ Hv key); cbn; [|done].
    f_equal. by apply IH.
Qed.

Lemma view_dict_rel (d1 d2 : gmap string val) :
  dict_rel R d1 d2 → same_structure h1 d1 h2 d2.
Proof.
  intros Hd n. apply map_eq. intros key. rewrite !lookup_fmap.
  destruct (Hd key); cbn; [|done]. f_equal. by apply view_rel.
Qed.

(** Reading related stores gives related results. *)
Lemma py_get_rel (v1 v2 : val) (key : string) :
  val_rel R v1 v2 → outcome_rel R (py_get h1 v1 key) (py_get h2 v2 key).
Proof.
  intros Hv. destruct v1, v2; cbn in Hv; try done;
    try (by injection Hv as ->); try (by rewrite Hv).
  cbn. apply dict_rel_get. by apply (rel_content _ _ _ Hst).
Qed.

Lemma lookup_output_rel (c1 c2 : nat) (step_name output_key : string) :
  R c1 c2 →
  outcome_rel R (lookup_output h1 c1 step_name output_key)
    (lookup_output h2 c2 step_name output_key).
Proof.
  intros Hc. unfold lookup_output.
  destruct (rel_content _ _ _ Hst _ _ Hc step_name) as [v1 v2 Hv|].
  - by apply py_get_rel.
  - done.
Qed.

Lemma resolve_rel (c1 c2 : nat) (v1 v2 : val) :
  R c1 c2 → val_rel R v1 v2 →
  outcome_rel R (resolve h1 c1 v1) (resolve h2 c2 v2).
Proof.
  intros Hc Hv. destruct v1, v2; cbn in Hv; try done.
  injection Hv as <-. unfold resolve.
  destruct (String.prefix "$" s); [|done].
  destruct (contains "." (str_drop 1 s)).
  - destruct (split1 "." (str_drop 1 s)) as [|a [|b [|? ?]]]; try done.
    by apply lookup_output_rel.
  - apply dict_rel_get. by apply (rel_content _ _ _ Hst).
Qed.

Lemma resolve_inputs_rel (c1 c2 : nat) (items : list (string * val))
    (acc1 acc2 : gmap string val) :
  R c1 c2 →
  (∀ key v, (key, v) ∈ items → val_rel R v v) →
  dict_rel R acc1 acc2 →
  match Step.resolve_inputs h1 c1 items acc1,
        Step.resolve_inputs h2 c2 items acc2 with
  | Returns kw1, Returns kw2 => dict_rel R kw1 kw2
  | Raises e1, Raises e2 => e1 = e2
  | _, _ => False
  end.
Proof.
  intros Hc. revert acc1 acc2.
  induction items as [|[key v] rest IH]; intros acc1 acc2 Hitems Hacc; [done|].
  cbn [Step.resolve_inputs].
  assert (val_rel R v v) as Hv by (apply (Hitems key); apply list_elem_of_here).
  pose proof (resolve_rel c1 c2 v v Hc Hv) as Hres.
  destruct (resolve h1 c1 v) as [r1|e1], (resolve h2 c2 v) as [r2|e2];
    cbn in Hres; try done.
  apply IH.
  - intros k w Hin. apply (Hitems k). by apply list_elem_of_further.
  - by apply dict_rel_insert.
Qed.

(** Writing related values to related objects, and creating a pair of
    objects, keep the stores in correspondence. *)
Lemma store_rel_setitem (c1 c2 : nat) (key : string) (v1 v2 : val) :
  R c1 c2 → val_rel R v1 v2 →
  store_rel R (setitem h1 c1 key v1) (setitem h2 c2 key v2).
Proof.
  intros Hc Hv. split.
  - intros l1 l2 HR. rewrite !dom_setitem.
    destruct (rel_dom _ _ _ Hst _ _ HR). set_solver.
  - apply (rel_fun _ _ _ Hst).
  - apply (rel_inj _ _ _ Hst).
  - intros l1 l2 HR. destruct (decide (c1 = l1)) as [<-|Hne].
    + rewrite (rel_fun _ _ _ Hst _ _ _ HR Hc), !deref_setitem.
      apply dict_rel_insert; [|done]. by apply (rel_content _ _ _ Hst).
    + assert (c2 ≠ l2) as Hne2.
      { intros <-. by apply Hne, (rel_inj _ _ _ Hst _ _ _ Hc HR). }
      rewrite !deref_setitem_ne by done. by apply (rel_content _ _ _ Hst).
Qed.

Lemma store_rel_alloc (a b : nat) (d1 d2 : gmap string val) :
  a ∉ dom h1 → b ∉ dom h2 →
  dict_rel (extend R a b) d1 d2 →
  store_rel (extend R a b) (<[a := d1]> h1) (<[b := d2]> h2).
Proof.
  intros Ha Hb Hd.
  assert (∀ l1 l2, R l1 l2 → l1 ≠ a ∧ l2 ≠ b) as Hold.
  { intros l1 l2 HR. destruct (rel_dom _ _ _ Hst _ _ HR). split; by intros ->. }
  split.
  - intros l1 l2 [HR|[-> ->]]; rewrite !dom_insert_L; [|set_solver].
    destruct (rel_dom _ _ _ Hst _ _ HR). set_solver.
  - intros l1 l2 l2' [HR|[Ha1 Hb1]] [HR'|[Ha2 Hb2]]; [|exfalso..|congruence].
    + by apply (rel_fun _ _ _ Hst l1).
    + by destruct (Hold _ _ HR).
    + by destruct (Hold _ _ HR').
  - intros l1 l1' l2 [HR|[Ha1 Hb1]] [HR'|[Ha2 Hb2]]; [|exfalso..|congruence].
    + by apply (rel_inj _ _ _ Hst _ _ l2).
    + by destruct (Hold _ _ HR).
    + by destruct (Hold _ _ HR').
  - intros l1 l2 [HR|[-> ->]].
    + destruct (Hold _ _ HR) as [H1 H2]. unfold deref.
      rewrite !lookup_insert_ne by done.
      apply (dict_rel_mono R); [apply extend_incl|].
      by apply (rel_content _ _ _ Hst).
    + unfold deref. by rewrite !lookup_insert_eq.
Qed.

(** A deterministic action keeps the stores in correspondence through
    [Step.run]. *)
Lemma step_run_rel (c1 c2 : nat) (s : Step.t) :
  deterministic (Step.action s) →
  R c1 c2 →
  (∀ key v, (key, v) ∈ Step.inputs s → val_rel R v v) →
  ∃ R' : nat → nat → Prop,
    (∀ l1 l2, R l1 l2 → R' l1 l2)
    ∧ store_rel R' (Step.run s c1 h1).2 (Step.run s c2 h2).2
    ∧ outcome_rel R' (Step.run s c1 h1).1 (Step.run s c2 h2).1.
Proof.
  intros Hdet Hc Hitems. unfold Step.run.
  pose proof (resolve_inputs_rel c1 c2 (Step.inputs s) ∅ ∅ Hc
                Hitems (dict_rel_empty R)) as Hkw.
  destruct (Step.resolve_inputs h1 c1 (Step.inputs s) ∅) as [kw1|e1],
           (Step.resolve_inputs h2 c2 (Step.inputs s) ∅) as [kw2|e2];
    try done.
  - by apply Hdet.
  - exists R. by split_and!.
Qed.

End related_stores.

(** *** The loop and the run *)

Lemma loop_rel (steps : list Step.t) (R : nat → nat → Prop)
    (h1 h2 : heap) (c1 c2 : nat) (res1 res2 : gmap string val) :
  Forall (λ s, deterministic (Step.action s)) steps →
  (∀ s key l, s ∈ steps → (key, VRef l) ∈ Step.inputs s → R l l) →
  store_rel R h1 h2 → R c1 c2 → dict_rel R res1 res2 →
  ∃ R' : nat → nat → Prop,
    (∀ l1 l2, R l1 l2 → R' l1 l2)
    ∧ store_rel R' (Pipeline.loop c1 steps res1 h1).2
        (Pipeline.loop c2 steps res2 h2).2
    ∧ dict_rel R' (Pipeline.loop c1 steps res1 h1).1
        (Pipeline.loop c2 steps res2 h2).1.
Proof.
  revert R h1 h2 res1 res2.
  induction steps as [|step rest IH]; intros R h1 h2 res1 res2 Hdet Hin Hst Hc Hres.
  - exists R. by split_and!.
  - apply Forall_cons in Hdet as [Hd Hdet]. cbn [Pipeline.loop].
    destruct (step_run_rel R h1 h2 Hst c1 c2 step Hd Hc) as (R1 & Hsub & Hst1 & Ho).
    { intros key v Hv. destruct v; try done. cbn.
      apply (Hin step key); [apply list_elem_of_here|done]. }
    destruct (Step.run step c1 h1) as [[r1|e1] h1'],
             (Step.run step c2 h2) as [[r2|e2] h2']; cbn in Hst1, Ho; try done.
    + destruct (IH R1 (setitem h1' c1 (Step.name step) r1)
                  (setitem h2' c2 (Step.name step) r2)
                  (<[Step.name step := r1]> res1) (<[Step.name step := r2]> res2))
        as (R' & Hsub' & Hst' & Hres'); [done| | | | |].
      * intros s key l Hs Hl. apply Hsub, (Hin s key); [|done].
        by apply list_elem_of_further.
      * apply store_rel_setitem; auto.
      * by apply Hsub.
      * apply dict_rel_insert; [|done]. by apply (dict_rel_mono R).
      * exists R'. split_and!; [|done|done]. auto.
    + subst e2. unfold alloc. cbn.
      set (a := fresh (dom h1')). set (b := fresh (dom h2')).
      exists (extend R1 a b). split_and!.
      * intros l1 l2 HR. by apply extend_incl, Hsub.
      * apply store_rel_setitem; [|by apply extend_incl, Hsub|done].
        apply store_rel_alloc; [done|apply is_fresh|apply is_fresh|].
        apply dict_rel_insert; [apply dict_rel_empty|done].
      * apply dict_rel_insert; [|by right].
        apply (dict_rel_mono R); [|done].
        intros l1 l2 HR. by apply extend_incl, Hsub.
Qed.

Lemma returning_deterministic (d : gmap string val) :
  (∀ key l, d !! key ≠ Some (VRef l)) → deterministic (returning d).
Proof.
  intros Hd R kw1 kw2 h1 h2 Hst _. unfold returning. cbn.
  exists (extend R (fresh (dom h1)) (fresh (dom h2))). split_and!.
  - apply extend_incl.
  - rewrite <- !insert_union_singleton_l.
    apply store_rel_alloc; [done|apply is_fresh|apply is_fresh|].
    intros key. destruct (d !! key) as [v|] eqn:Hv; constructor.
    apply val_rel_scalar. intros l ->. by apply (Hd key l).
  - by right.
Qed.

Lemma raising_deterministic (e : string) : deterministic (raising e).
Proof.
  intros R kw1 kw2 h1 h2 Hst _. exists R. unfold raising. cbn.
  by rewrite !(left_id_L ∅ (∪)).
Qed.

Lemma run_dom_store (p : Pipeline.t) (initial_context : option nat)
    (started completed : string) (h : heap) :
  dom h ⊆ dom (Pipeline.run p initial_context started completed h).2.
Proof.
  destruct (run_unfold p initial_context started completed h) as [-> _].
  destruct (init_spec p initial_context started h) as (_ & _ & Hdom & _).
  cbn [snd]. rewrite dom_setitem.
  pose proof (loop_dom_store
                (Pipeline.run_context p initial_context started h)
                (Pipeline.steps p) ∅
                (Pipeline.init p initial_context started h).2).
  set_solver.
Qed.

(** *** Without the clock readings *)

Lemma not_stamp (k : string) :
  k ∉ stamps ↔ k ≠ "_started" ∧ k ≠ "_completed".
Proof. unfold stamps. set_solver. Qed.

Lemma unstamp_lookup (d : gmap string val) (k : string) :
  k ∉ stamps → unstamp d !! k = d !! k.
Proof.
  intros [? ?]%not_stamp. unfold unstamp. by rewrite !lookup_delete_ne.
Qed.

Lemma unstamp_lookup_stamp (d : gmap string val) (k : string) :
  k ∈ stamps → unstamp d !! k = None.
Proof.
  unfold unstamp. intros Hk.
  assert (k = "_started" ∨ k = "_completed") as [->| ->]
    by (unfold stamps in Hk; set_solver).
  - by rewrite lookup_delete_eq.
  - rewrite lookup_delete_ne by done. by rewrite lookup_delete_eq.
Qed.

Lemma unstamp_insert_stamp (d : gmap string val) (k : string) (v : val) :
  k ∈ stamps → unstamp (<[k := v]> d) = unstamp d.
Proof.
  intros Hk. apply map_eq. intros key.
  destruct (decide (key ∈ stamps)) as [Hs|Hs].
  - by rewrite !unstamp_lookup_stamp.
  - rewrite !unstamp_lookup by done. apply lookup_insert_ne. by intros ->.
Qed.

Lemma unstamp_insert_other (d : gmap string val) (k : string) (v : val) :
  k ∉ stamps → unstamp (<[k := v]> d) = <[k := v]> (unstamp d).
Proof.
  intros Hk. apply map_eq. intros key.
  destruct (decide (key = k)) as [->|Hne].
  - rewrite unstamp_lookup by done. by rewrite !lookup_insert_eq.
  - rewrite lookup_insert_ne by done.
    destruct (decide (key ∈ stamps)) as [Hs|Hs].
    + by rewrite !unstamp_lookup_stamp.
    + rewrite !unstamp_lookup by done. by rewrite lookup_insert_ne.
Qed.

Lemma deref_unstamped_eq (c : loc) (h : heap) :
  deref (unstamped c h) c = unstamp (deref h c).
Proof. unfold unstamped, deref at 1. by rewrite lookup_insert_eq. Qed.

Lemma deref_unstamped_ne (c l : loc) (h : heap) :
  l ≠ c → deref (unstamped c h) l = deref h l.
Proof. intros Hne. unfold unstamped, deref. by rewrite lookup_insert_ne. Qed.

Lemma dom_unstamped (c : loc) (h : heap) :
  c ∈ dom h → dom (unstamped c h) = dom h.
Proof. intros Hc. unfold unstamped. rewrite dom_insert_L. set_solver. Qed.

Lemma unstamped_setitem_stamp (c : loc) (h : heap) (k : string) (v : val) :
  k ∈ stamps → unstamped c (setitem h c k v) = unstamped c h.
Proof.
  intros Hk. unfold unstamped. rewrite deref_setitem, unstamp_insert_stamp by done.
  unfold setitem. by rewrite insert_insert_eq.
Qed.

Lemma unstamped_setitem_other (c : loc) (h : heap) (k : string) (v : val) :
  k ∉ stamps →
  unstamped c (setitem h c k v) = setitem (unstamped c h) c k v.
Proof.
  intros Hk. unfold unstamped at 1.
  rewrite deref_setitem, unstamp_insert_other by done.
  unfold setitem. rewrite deref_unstamped_eq. unfold unstamped.
  by rewrite !insert_insert_eq.
Qed.

Lemma unstamped_insert_ne (c l : loc) (d : gmap string val) (h : heap) :
  l ≠ c → unstamped c (<[l := d]> h) = <[l := d]> (unstamped c h).
Proof.
  intros Hne. unfold unstamped, deref. rewrite lookup_insert_ne by done.
  by apply insert_insert_ne.
Qed.

Lemma unstamped_union (c : loc) (w h : heap) :
  w !! c = None → unstamped c (w ∪ h) = w ∪ unstamped c h.
Proof.
  intros Hw. unfold unstamped, deref. rewrite lookup_union_r by done.
  by apply insert_union_r.
Qed.

Lemma prefix_dollar_inv (s : string) :
  String.prefix "$" s = true → ∃ ref, s = String "$" ref.
Proof.
  destruct s as [|c ref]; [done|]. cbn [String.prefix].
  destruct (Ascii.ascii_dec "$" c) as [<-|]; [by eexists|done].
Qed.

Lemma py_get_unstamped (c : loc) (h : heap) (v : val) (key : string) :
  key ∉ stamps → py_get (unstamped c h) v key = py_get h v key.
Proof.
  intros Hk. destruct v as [| | | | |l]; try done. cbn. f_equal.
  unfold dict_get. destruct (decide (l = c)) as [->|Hne].
  - by rewrite deref_unstamped_eq, unstamp_lookup.
  - by rewrite deref_unstamped_ne.
Qed.

Lemma lookup_output_unstamped (c : loc) (h : heap)
    (step_name output_key : string) :
  step_name ∉ stamps → output_key ∉ stamps →
  lookup_output (unstamped c h) c step_name output_key
  = lookup_output h c step_name output_key.
Proof.
  intros Hs Hk. unfold lookup_output.
  rewrite deref_unstamped_eq, unstamp_lookup by done.
  destruct (deref h c !! step_name); [by apply py_get_unstamped|done].
Qed.

(** A reference that names no stamp reads the same with and without
    them. *)
Lemma resolve_unstamped (c : loc) (h : heap) (v : val) :
  stamp_free v → resolve (unstamped c h) c v = resolve h c v.
Proof.
  intros Hfree. destruct v as [| | |s| |]; try done.
  destruct (String.prefix "$" s) eqn:Hp; [|unfold resolve; by rewrite Hp].
  apply prefix_dollar_inv in Hp as [ref ->].
  specialize (Hfree ref eq_refl).
  destruct (contains "." ref) eqn:Hdot.
  - destruct (contains_cut _ _ Hdot) as (a & b & Hcut).
    rewrite Hcut in Hfree. destruct Hfree as [Ha Hb].
    destruct (cut_Some _ _ _ _ Hcut) as [-> Hna].
    rewrite !resolve_dollar_dotted by done.
    by apply lookup_output_unstamped.
  - rewrite !resolve_dollar_plain by done.
    rewrite cut_None in Hfree by done.
    unfold dict_get. by rewrite deref_unstamped_eq, unstamp_lookup.
Qed.

Lemma resolve_inputs_unstamped (c : loc) (h : heap)
    (items : list (string * val)) (acc : gmap string val) :
  Forall (λ binding, stamp_free binding.2) items →
  Step.resolve_inputs (unstamped c h) c items acc
  = Step.resolve_inputs h c items acc.
Proof.
  revert acc. induction items as [|[key v] rest IH]; intros acc Hfree; [done|].
  apply Forall_cons in Hfree as [Hv Hfree]. cbn [Step.resolve_inputs].
  rewrite resolve_unstamped by done.
  destruct (resolve h c v); [by apply IH|done].
Qed.

(** A timeless step does the same with and without the stamps. *)
Lemma step_run_unstamped (c : loc) (s : Step.t) (h : heap) :
  c ∈ dom h → timeless c s →
  Step.run s c (unstamped c h)
  = ((Step.run s c h).1, unstamped c (Step.run s c h).2).
Proof.
  intros Hc (Hquiet & Hblind & _ & Hfree). unfold Step.run.
  rewrite resolve_inputs_unstamped by done.
  destruct (Step.resolve_inputs h c (Step.inputs s) ∅) as [kw|e]; [|done].
  cbn [fst snd]. unfold unstamped at 1 2. rewrite (Hblind kw h _ Hc).
  f_equal. symmetry. apply unstamped_union. by apply Hquiet.
Qed.

Lemma loop_unstamped (c : loc) (steps : list Step.t)
    (results : gmap string val) (h : heap) :
  c ∈ dom h → Forall (timeless c) steps →
  Pipeline.loop c steps results (unstamped c h)
  = ((Pipeline.loop c steps results h).1,
     unstamped c (Pipeline.loop c steps results h).2).
Proof.
  revert results h. induction steps as [|s rest IH]; intros results h Hc Hall;
    [done|].
  apply Forall_cons in Hall as [Hs Hall]. cbn [Pipeline.loop].
  rewrite step_run_unstamped by done.
  pose proof (step_run_dom s c h) as Hdom.
  destruct (Step.run s c h) as [[r|e] h1]; cbn [fst snd] in *.
  - destruct Hs as (_ & _ & Hname & _).
    rewrite <- unstamped_setitem_other by done. apply IH; [|done].
    rewrite dom_setitem. set_solver.
  - assert (c ∈ dom h1) as Hc1 by set_solver.
    unfold alloc. rewrite dom_unstamped by done. cbn [fst snd].
    assert (fresh (dom h1) ≠ c) as Hne.
    { intros Heq. apply (is_fresh (dom h1)). by rewrite Heq. }
    f_equal. rewrite unstamped_setitem_other by (by apply not_stamp).
    by rewrite unstamped_insert_ne.
Qed.

Lemma run_context_clock (p : Pipeline.t) (initial_context : option loc)
    (started started' : string) (h : heap) :
  Pipeline.run_context p initial_context started h
  = Pipeline.run_context p initial_context started' h.
Proof. by rewrite !init_context. Qed.

Lemma init_clock (p : Pipeline.t) (initial_context : option loc)
    (started started' : string) (h : heap) :
  let c := Pipeline.run_context p initial_context started h in
  unstamped c (Pipeline.init p initial_context started h).2
  = unstamped c (Pipeline.init p initial_context started' h).2.
Proof.
  unfold Pipeline.run_context, Pipeline.init.
  destruct initial_context as [l|]; [destruct (decide (deref h l = ∅))|];
    cbn [alloc fst snd];
    rewrite !(unstamped_setitem_stamp _ _ "_started"); try done;
    unfold stamps; set_solver.
Qed.

(** The results of a run of timeless steps do not depend on the clock,
    and neither does the store, the stamps apart. *)
Lemma run_clock (p : Pipeline.t) (initial_context : option loc)
    (started completed started' completed' : string) (h : heap) :
  let c := Pipeline.run_context p initial_context started h in
  Forall (timeless c) (Pipeline.steps p) →
  (Pipeline.run p initial_context started completed h).1
  = (Pipeline.run p initial_context started' completed' h).1
  ∧ unstamped c (Pipeline.run p initial_context started completed h).2
    = unstamped c (Pipeline.run p initial_context started' completed' h).2.
Proof.
  intros c Hall.
  destruct (run_unfold p initial_context started completed h) as [-> _].
  destruct (run_unfold p initial_context started' completed' h) as [-> _].
  rewrite <- (run_context_clock p initial_context started started'). fold c.
  destruct (init_spec p initial_context started h) as (Hc & _).
  destruct (init_spec p initial_context started' h) as (Hc' & _).
  rewrite <- (run_context_clock p initial_context started started') in Hc'.
  fold c in Hc, Hc'.
  pose proof (init_clock p initial_context started started' h) as Hinit.
  fold c in Hinit. cbn beta zeta in Hinit.
  pose proof (loop_unstamped c (Pipeline.steps p) ∅ _ Hc Hall) as H1.
  pose proof (loop_unstamped c (Pipeline.steps p) ∅ _ Hc' Hall) as H2.
  rewrite Hinit, H2 in H1. injection H1 as Hres Hst.
  cbn [fst snd]. split; [by rewrite Hres|].
  rewrite !(unstamped_setitem_stamp _ _ "_completed"); [done|..];
    unfold stamps; set_solver.
Qed.

Lemma dict_rel_delete (R : nat → nat → Prop) (d1 d2 : gmap string val)
    (key : string) :
  dict_rel R d1 d2 → dict_rel R (delete key d1) (delete key d2).
Proof.
  intros Hd k. destruct (decide (k = key)) as [->|Hne].
  - rewrite !lookup_delete_eq. constructor.
  - rewrite !lookup_delete_ne by done. apply Hd.
Qed.

(** Removing the stamps from two objects in correspondence keeps the
    stores in correspondence. *)
Lemma store_rel_unstamped (R : nat → nat → Prop) (h1 h2 : heap)
    (c1 c2 : nat) :
  store_rel R h1 h2 → R c1 c2 →
  store_rel R (unstamped c1 h1) (unstamped c2 h2).
Proof.
  intros Hst Hc. split.
  - intros l1 l2 HR. unfold unstamped. rewrite !dom_insert_L.
    destruct (rel_dom _ _ _ Hst _ _ HR). set_solver.
  - apply (rel_fun _ _ _ Hst).
  - apply (rel_inj _ _ _ Hst).
  - intros l1 l2 HR. destruct (decide (l1 = c1)) as [->|Hne].
    + rewrite (rel_fun _ _ _ Hst _ _ _ HR Hc), !deref_unstamped_eq.
      unfold unstamp. do 2 apply dict_rel_delete.
      by apply (rel_content _ _ _ Hst).
    + assert (l2 ≠ c2) as Hne2.
      { intros ->. by apply Hne, (rel_inj _ _ _ Hst _ _ _ HR Hc). }
      rewrite !deref_unstamped_ne by done. by apply (rel_content _ _ _ Hst).
Qed.

(** *** The second run, in the store the first one left *)

Lemma run_context_dom (p : Pipeline.t) (initial_context : option loc)
    (started completed : string) (h : heap) :
  Pipeline.run_context p initial_context started h
  ∈ dom (Pipeline.run p initial_context started completed h).2.
Proof.
  destruct (run_unfold p initial_context started completed h) as [-> _].
  cbn [snd]. rewrite dom_setitem. set_solver.
Qed.

Lemma fresh_unreferenced (p : Pipeline.t) (h : heap) (c : loc) :
  closed h → inputs_in p h → c ∉ dom h → unreferenced c p h.
Proof.
  intros Hclosed Hin Hc. split.
  - intros l d key Hl Hkey. apply Hc. by apply (Hclosed l d key).
  - intros s key Hs Hkey. apply Hc. by apply (Hin s key).
Qed.

(** Where the working context of a run comes from. *)
Lemma run_context_cases (p : Pipeline.t) (initial_context : option loc)
    (started : string) (h : heap) :
  let c := Pipeline.run_context p initial_context started h in
  ((c ∉ dom h) ∧ seed initial_context h = ∅)
  ∨ (initial_context = Some c ∧ seed initial_context h ≠ ∅).
Proof.
  cbn zeta. rewrite init_context. unfold seed.
  destruct initial_context as [l|]; [destruct (decide (deref h l = ∅))|].
  - left. split; [apply is_fresh|done].
  - by right.
  - left. split; [apply is_fresh|done].
Qed.

Section second_run.

Context (p : Pipeline.t) (ic1 ic2 : option loc) (h : heap).
Context (st co : string).

#[local] Abbreviation first := (Pipeline.run p ic1 st co h).
#[local] Abbreviation c1 := (Pipeline.run_context p ic1 st h).

Hypothesis Hclosed : closed h.
Hypothesis Hin : inputs_in p h.
Hypothesis Hgiven : ∀ l, ic1 = Some l ∨ ic2 = Some l → l ∈ dom h.
Hypothesis Hseed : seed ic1 h = seed ic2 h.
Hypothesis Hapart : seed ic1 h ≠ ∅ → ic1 ≠ ic2.
Hypothesis Hunref : ∀ l, ic1 = Some l ∨ ic2 = Some l → unreferenced l p h.
Hypothesis Hquiet : ∀ l, l ∈ dom h → Forall (quiet l) (Pipeline.steps p).

(** The dictionary given to the second run is not the context of the
    first, and the first run leaves it as it was. *)
Lemma second_given (l : loc) : ic2 = Some l → l ≠ c1.
Proof.
  intros Hl.
  destruct (run_context_cases p ic1 st h) as [[Hfresh _]|[Hic Hfull]].
  - intros ->. apply Hfresh, Hgiven. by right.
  - intros ->. apply (Hapart Hfull). congruence.
Qed.

Lemma second_seed : seed ic2 first.2 = seed ic2 h.
Proof.
  assert (∀ l, ic2 = Some l → deref first.2 l = deref h l) as Hkept.
  { intros l Hl. unfold deref. rewrite run_frame; [done| | |].
    - apply Hgiven. by right.
    - by apply second_given.
    - apply Hquiet, Hgiven. by right. }
  unfold seed. destruct ic2 as [l|]; [by apply Hkept|done].
Qed.

Lemma second_context :
  let c2 := Pipeline.run_context p ic2 st first.2 in
  c1 ≠ c2 ∧ unreferenced c1 p h ∧ unreferenced c2 p h
  ∧ (c2 ∈ dom h → ic2 = Some c2).
Proof.
  intros c2.
  assert (dom h ⊆ dom first.2) as Hsub by apply run_dom_store.
  assert (c1 ∈ dom first.2) as Hc1 by apply run_context_dom.
  split_and!.
  - subst c2.
    destruct (run_context_cases p ic2 st first.2) as [[Hfresh _]|[Hic _]].
    + intros Heq. apply Hfresh. by rewrite <- Heq.
    + intros Heq. by apply (second_given _ Hic).
  - destruct (run_context_cases p ic1 st h) as [[Hfresh _]|[Hic _]].
    + by apply fresh_unreferenced.
    + apply Hunref. by left.
  - subst c2.
    destruct (run_context_cases p ic2 st first.2) as [[Hfresh _]|[Hic _]].
    + apply fresh_unreferenced; [done|done|]. set_solver.
    + apply Hunref. by right.
  - subst c2. intros Hc2.
    destruct (run_context_cases p ic2 st first.2) as [[Hfresh _]|[Hic _]];
      [|done].
    destruct Hfresh. set_solver.
Qed.

(** The correspondence at the start of the two loops: every object of the
    original store that is not a working context corresponds to itself,
    and the two contexts to each other. *)
Lemma second_start :
  let c2 := Pipeline.run_context p ic2 st first.2 in
  let R0 := extend (λ l1 l2, l1 = l2 ∧ l1 ∈ dom h ∧ l1 ≠ c1 ∧ l1 ≠ c2) c1 c2 in
  store_rel R0 (Pipeline.init p ic1 st h).2 (Pipeline.init p ic2 st first.2).2
  ∧ (∀ s key l, s ∈ Pipeline.steps p → (key, VRef l) ∈ Step.inputs s → R0 l l).
Proof.
  intros c2 R0.
  destruct second_context as (Hne & [Hun1 Hin1] & [Hun2 Hin2] & Hc2).
  fold c2 in Hne, Hun2, Hin2, Hc2.
  destruct (init_spec p ic1 st h) as (Hd1 & Hcontent1 & Hsub1 & Hother1).
  destruct (init_spec p ic2 st first.2) as (Hd2 & Hcontent2 & Hsub2 & Hother2).
  fold c2 in Hd2, Hcontent2, Hother2.
  assert (dom h ⊆ dom first.2) as Hsub by apply run_dom_store.
  assert (∀ (d : gmap string val) l, h !! l = Some d → dict_rel R0 d d) as Hself.
  { intros d l Hl key. destruct (d !! key) as [v|] eqn:Hv; constructor.
    destruct v as [| | | | |m]; try done. cbn. left. split_and!; [done| | |].
    - by apply (Hclosed l d key).
    - intros ->. by apply (Hun1 l d key).
    - intros ->. by apply (Hun2 l d key). }
  assert (dict_rel R0 (seed ic1 h) (seed ic2 first.2)) as Hseeds.
  { rewrite second_seed, <- Hseed. unfold seed.
    destruct ic1 as [l|]; [|apply dict_rel_empty].
    unfold deref. destruct (h !! l) as [d|] eqn:Hl; [|apply dict_rel_empty].
    by apply (Hself d l). }
  split.
  - split.
    + intros l1 l2 [(<- & Hl & _ & _)|[-> ->]]; [|done]. set_solver.
    + intros l1 l2 l2' [(<- & _ & Hn1 & _)|[-> ->]] [(<- & _ & Hn1' & _)|[Ha ->]];
        done.
    + intros l1 l1' l2 [(<- & _ & _ & Hn2)|[-> ->]] [(<- & _ & _ & Hn2')|[-> Hb]];
        done.
    + intros l1 l2 [(<- & Hl & Hn1 & Hn2)|[-> ->]].
      * unfold deref. rewrite Hother1, Hother2 by done.
        rewrite run_frame; [|done|done|by apply Hquiet].
        apply elem_of_dom in Hl as [d Hd]. rewrite Hd. cbn.
        by apply (Hself d l1).
      * rewrite Hcontent1, Hcontent2.
        apply dict_rel_insert; [|done]. by apply dict_rel_insert.
  - intros s key l Hs Hl. left. split_and!; [done| | |].
    + by apply (Hin s key).
    + intros ->. by apply (Hin1 s key).
    + intros ->. by apply (Hin2 s key).
Qed.

(** With the same clock readings, the two runs end in stores and with
    results in correspondence. *)
Lemma second_run_rel :
  Forall (λ s, deterministic (Step.action s)) (Pipeline.steps p) →
  let second := Pipeline.run p ic2 st co first.2 in
  let c2 := Pipeline.run_context p ic2 st first.2 in
  ∃ R : nat → nat → Prop,
    R c1 c2 ∧ store_rel R first.2 second.2 ∧ dict_rel R first.1 second.1.
Proof.
  intros Hdet second c2.
  destruct second_start as [Hst0 Hin0]. fold c2 in Hst0, Hin0.
  set (R0 := extend (λ l1 l2, l1 = l2 ∧ l1 ∈ dom h ∧ l1 ≠ c1 ∧ l1 ≠ c2) c1 c2)
    in *.
  assert (R0 c1 c2) as Hc0 by (by right).
  destruct (loop_rel (Pipeline.steps p) R0 _ _ c1 c2 ∅ ∅
              Hdet Hin0 Hst0 Hc0 (dict_rel_empty _))
    as (R' & Hsub & Hst' & Hres').
  exists R'. split; [by apply Hsub|].
  pose proof (proj1 (run_unfold p ic1 st co h)) as E1.
  pose proof (proj1 (run_unfold p ic2 st co first.2)) as E2.
  cbn zeta in E1, E2. fold second c2 in E2.
  rewrite E1 at 1 2. rewrite E2. cbn [fst snd]. split.
  - apply store_rel_setitem; [done|by apply Hsub|done].
  - apply dict_rel_insert; [done|]. by apply Hsub.
Qed.

End second_run.

Lemma returning_blind (l : loc) (name : string) (d : gmap string val)
    (inputs : list (string * val)) (outputs : list string) :
  blind l (Step.mk name (returning d) inputs outputs).
Proof.
  intros kw h d' Hl. cbn. unfold returning. rewrite dom_insert_L.
  by replace ({[l]} ∪ dom h) with (dom h) by set_solver.
Qed.

Lemma raising_blind (l : loc) (name e : string)
    (inputs : list (string * val)) (outputs : list string) :
  blind l (Step.mk name (raising e) inputs outputs).
Proof. by intros kw h d' Hl. Qed.




(** ** The two-step scenario *)

(** ["fetch"] returns [{"value": 10}], ["double"] takes ["$fetch.value"]
    as [n] and returns [{"value": n * 2}]: the result of ["double"] holds
    20. *)
Example fetch_double :
  let run := Pipeline.run fetch_then_double None "t0" "t1" ∅ in
  ∃ l, run.1 !! "double" = Some (VRef l)
       ∧ deref run.2 l !! "value" = Some (VInt 20).
Proof. exists 2. by vm_compute. Qed.

(** * Further properties *)

(** ** Composition of the loop *)

Lemma loop_store_indep (context : loc) (steps : list Step.t)
    (results results' : gmap string val) (h : heap) :
  (Pipeline.loop context steps results h).2
  = (Pipeline.loop context steps results' h).2.
Proof.
  revert results results' h. induction steps as [|s rest IH];
    intros results results' h; [done|].
  cbn [Pipeline.loop]. destruct (Step.run s context h) as [[r|e] h1].
  - apply IH.
  - unfold alloc. done.
Qed.

Lemma trace_app (context : loc) (steps more : list Step.t)
    (results : gmap string val) (h : heap) :
  Pipeline.trace context (steps ++ more) h
  = (Pipeline.trace context steps h
     ++ (if failed (Pipeline.trace context steps h) then []
         else Pipeline.trace context more
                (Pipeline.loop context steps results h).2))%list.
Proof.
  revert results h. induction steps as [|s rest IH]; intros results h; [done|].
  cbn [app Pipeline.trace Pipeline.loop].
  destruct (Step.run s context h) as [[r|e] h1]; [|done].
  cbn. f_equal. apply IH.
Qed.

Lemma loop_app (context : loc) (steps more : list Step.t)
    (results : gmap string val) (h : heap) :
  Pipeline.loop context (steps ++ more) results h
  = if failed (Pipeline.trace context steps h)
    then Pipeline.loop context steps results h
    else Pipeline.loop context more
           (Pipeline.loop context steps results h).1
           (Pipeline.loop context steps results h).2.
Proof.
  revert results h. induction steps as [|s rest IH]; intros results h; [done|].
  cbn [app Pipeline.trace Pipeline.loop].
  destruct (Step.run s context h) as [[r|e] h1]; [|done].
  cbn. apply IH.
Qed.

Lemma trace_single (context : loc) (s : Step.t) (h : heap) :
  Pipeline.trace context [s] h = [(s, (Step.run s context h).1)].
Proof. cbn. by destruct (Step.run s context h) as [[r|e] h1]. Qed.

(** [add_step] appends: the steps of the pipeline keep their order and the
    new step comes last.  When the run of the pipeline fails, the run
    with the added step is the same run, results and store; when it does
    not, the added step runs once, after all the others, in the store
    they left. *)
Theorem add_step_run (p : Pipeline.t) (s : Step.t)
    (initial_context : option loc) (started completed : string)
    (h : heap) :
  let context := Pipeline.run_context p initial_context started h in
  let h0 := (Pipeline.init p initial_context started h).2 in
  let tr := Pipeline.run_trace p initial_context started h in
  Pipeline.steps (Pipeline.add_step p s) = (Pipeline.steps p ++ [s])%list
  ∧ (failed tr = true →
       Pipeline.run (Pipeline.add_step p s) initial_context started completed h
       = Pipeline.run p initial_context started completed h)
  ∧ (failed tr = false →
       Pipeline.run_trace (Pipeline.add_step p s) initial_context started h
       = (tr ++ [(s, (Step.run s context
                        (Pipeline.loop context (Pipeline.steps p) ∅ h0).2).1)])%list).
Proof.
  intros context h0 tr.
  destruct (run_unfold p initial_context started completed h) as [Hrun Htr].
  destruct (run_unfold (Pipeline.add_step p s) initial_context started completed h)
    as [Hrun' Htr'].
  change (Pipeline.run_context (Pipeline.add_step p s) initial_context started h)
    with context in Hrun', Htr'.
  change (Pipeline.init (Pipeline.add_step p s) initial_context started h).2
    with h0 in Hrun', Htr'.
  fold context h0 in Hrun, Htr. fold tr in Htr.
  cbn [Pipeline.add_step Pipeline.steps] in Hrun', Htr'.
  split_and!; [done| |].
  - intros Hfailed. rewrite Hrun', Hrun, loop_app, <- Htr, Hfailed. done.
  - intros Hok. rewrite Htr', (trace_app _ _ _ ∅), <- Htr, Hok, trace_single. done.
Qed.

Lemma add_step_run_witness :
  failed (Pipeline.run_trace four_steps None "t0" ∅) = true
  ∧ Pipeline.run (Pipeline.add_step four_steps greet) None "t0" "t1" ∅
    = Pipeline.run four_steps None "t0" "t1" ∅.
Proof.
  split; [reflexivity|].
  exact (proj1 (proj2 (add_step_run four_steps greet None "t0" "t1" ∅)) eq_refl).
Defined.

(** A pipeline as [create_pipeline] makes it has no steps: its run
    returns only ["_context"], the context holds the caller's entries
    and the three stamps, and no other object of the store changes. *)
Theorem create_pipeline_run (name description : string)
    (initial_context : option loc) (started completed : string)
    (h : heap) :
  let p := create_pipeline name description in
  let context := Pipeline.run_context p initial_context started h in
  let hf := (Pipeline.run p initial_context started completed h).2 in
  (Pipeline.run p initial_context started completed h).1
  = {["_context" := VRef context]}
  ∧ deref hf context
    = <["_completed" := VStr completed]>
        (<["_started" := VStr started]>
           (<["_pipeline" := VStr name]> (seed initial_context h)))
  ∧ (∀ l, l ≠ context → hf !! l = h !! l).
Proof.
  intros p context hf.
  destruct (run_unfold p initial_context started completed h) as [Hrun _].
  destruct (init_spec p initial_context started h) as (_ & Hinit & _ & Hother).
  fold context in Hrun, Hinit, Hother. subst hf. rewrite Hrun. cbn.
  split_and!.
  - done.
  - by rewrite deref_setitem, Hinit.
  - intros l Hl. rewrite lookup_setitem_ne by done. by apply Hother.
Qed.

Lemma create_pipeline_run_witness :
  0 ≠ Pipeline.run_context (create_pipeline "empty" "") None "t0" caller_store
  ∧ (Pipeline.run (create_pipeline "empty" "") None "t0" "t1" caller_store).2 !! 0
    = caller_store !! 0.
Proof.
  assert (0 ≠ Pipeline.run_context (create_pipeline "empty" "") None "t0"
                caller_store) as Hne by (by vm_compute).
  split; [exact Hne|].
  exact (proj2 (proj2 (create_pipeline_run "empty" "" None "t0" "t1"
                         caller_store)) 0 Hne).
Defined.

Lemma resolve_inputs_literal (h : heap) (context : loc)
    (items : list (string * val)) (acc : gmap string val) :
  NoDup items.*1 →
  Forall (λ binding, literal binding.2) items →
  Step.resolve_inputs h context items acc = Returns (list_to_map items ∪ acc).
Proof.
  revert acc. induction items as [|[key v] rest IH]; intros acc Hnd Hlit.
  - cbn. by rewrite (left_id_L ∅ (∪)).
  - rewrite fmap_cons in Hnd. apply NoDup_cons in Hnd as [Hkey Hnd].
    apply Forall_cons in Hlit as [Hv Hlit]. cbn [Step.resolve_inputs].
    rewrite resolve_literal by done. rewrite IH by done. f_equal.
    cbn [list_to_map foldr]. apply map_eq. intros k.
    rewrite !lookup_union. destruct (decide (key = k)) as [<-|Hne].
    + cbn [fst snd] in *. rewrite !lookup_insert_eq.
      rewrite (not_elem_of_list_to_map_1 rest key) by done.
      by destruct (acc !! key).
    + cbn [fst snd]. by rewrite !lookup_insert_ne.
Qed.

(** A step made by [step] whose inputs are all literal (or omitted) calls
    its action with exactly its inputs as arguments, whatever the context
    and the store hold; resolution never raises. *)
Theorem literal_step_ignores_context (name : string)
    (action : dict → heap → effect)
    (inputs : option (list (string * val))) (outputs : option (list string)) :
  NoDup (default [] inputs).*1 →
  Forall (λ binding, literal binding.2) (default [] inputs) →
  ∀ context h,
    Step.run (step name action inputs outputs) context h
    = (result (action (list_to_map (default [] inputs)) h),
       writes (action (list_to_map (default [] inputs)) h) ∪ h).
Proof.
  intros Hnd Hlit context h.
  apply (step_run_calls_action (step name action inputs outputs)).
  cbn [step Step.inputs]. rewrite resolve_inputs_literal by done.
  by rewrite (right_id_L ∅ (∪)).
Qed.

Lemma literal_step_ignores_context_witness :
  let inputs := Some [("topic", VStr "rust"); ("count", VInt 3)] in
  NoDup (default [] inputs).*1
  ∧ Forall (λ binding, literal binding.2) (default [] inputs)
  ∧ Step.run (step "greet" (raising "offline") inputs None) 0 example_store
    = (Raises "offline", ∅ ∪ example_store).
Proof.
  intros inputs.
  assert (NoDup (default [] inputs).*1) as Hnd.
  { cbn. repeat constructor; set_solver. }
  assert (Forall (λ binding, literal binding.2) (default [] inputs)) as Hlit.
  { repeat constructor; cbn; intros s Hs; [by injection Hs as <-|discriminate Hs]. }
  split_and!; [exact Hnd|exact Hlit|].
  exact (literal_step_ignores_context "greet" (raising "offline") inputs None
           Hnd Hlit 0 example_store).
Defined.

(** A dotted reference to an entry of the context that is [None], a
    [bool], an [int] or a [str] raises the [AttributeError] of [get]; the
    message names the type of the entry.  In every run this is what a
    reference into ["_pipeline"] or ["_started"] does. *)
Theorem reference_into_non_mapping (p : Pipeline.t)
    (initial_context : option loc) (started : string)
    (h : heap) :
  (∀ h' context step_name output_key v,
     contains "." step_name = false →
     deref h' context !! step_name = Some v →
     scalar v →
     resolve h' context (VStr (String "$" (step_name +:+ String "." output_key)))
     = Raises ("'" +:+ type_name v +:+ "' object has no attribute 'get'"))
  ∧ (let context := Pipeline.run_context p initial_context started h in
     let h0 := (Pipeline.init p initial_context started h).2 in
     ∀ output_key,
       resolve h0 context (VStr ("$_pipeline." +:+ output_key))
       = Raises "'str' object has no attribute 'get'"
       ∧ resolve h0 context (VStr ("$_started." +:+ output_key))
         = Raises "'str' object has no attribute 'get'").
Proof.
  assert (∀ h' context step_name output_key v,
     contains "." step_name = false →
     deref h' context !! step_name = Some v →
     scalar v →
     resolve h' context (VStr (String "$" (step_name +:+ String "." output_key)))
     = Raises ("'" +:+ type_name v +:+ "' object has no attribute 'get'"))
    as Hgen.
  { intros h' context step_name output_key v Hdot Hv Hscalar.
    rewrite resolve_dollar_dotted by done. by apply lookup_output_scalar. }
  split; [exact Hgen|]. intros context h0 output_key.
  destruct (init_spec p initial_context started h) as (_ & Hinit & _ & _).
  fold context h0 in Hinit. split.
  - apply (Hgen h0 context "_pipeline" output_key (VStr (Pipeline.name p)));
      [done| |done].
    rewrite Hinit. by rewrite lookup_insert_ne, lookup_insert_eq.
  - apply (Hgen h0 context "_started" output_key (VStr started)); [done| |done].
    rewrite Hinit. by rewrite lookup_insert_eq.
Qed.

Lemma reference_into_non_mapping_witness :
  contains "." "user" = false
  ∧ deref caller_store 0 !! "user" = Some (VStr "ann")
  ∧ scalar (VStr "ann")
  ∧ resolve caller_store 0 (VStr "$user.first")
    = Raises "'str' object has no attribute 'get'".
Proof.
  split_and!; [reflexivity|reflexivity|exact I|].
  apply (proj1 (reference_into_non_mapping no_steps None "t0" ∅)
           caller_store 0 "user" "first" (VStr "ann")); [reflexivity|reflexivity|].
  exact I.
Defined.

Lemma resolve_inputs_app (h : heap) (context : loc)
    (pre post : list (string * val)) (acc : gmap string val) :
  Step.resolve_inputs h context (pre ++ post) acc
  = match Step.resolve_inputs h context pre acc with
    | Returns resolved => Step.resolve_inputs h context post resolved
    | Raises e => Raises e
    end.
Proof.
  revert acc. induction pre as [|[key v] pre IH]; intros acc; [done|].
  cbn [app Step.resolve_inputs].
  destruct (resolve h context v) as [r|e]; [apply IH|done].
Qed.

(** When the lookup of a binding raises and the bindings before it, in
    the order of [inputs], do not, [Step.run] raises that exception: the
    action is not called and the store is unchanged. *)
Theorem first_failing_binding (self : Step.t) (context : loc)
    (h : heap)
    (pre post : list (string * val)) (key : string) (v : val) (e : string) :
  Step.inputs self = (pre ++ (key, v) :: post)%list →
  Forall (λ binding, is_raise (resolve h context binding.2) = false) pre →
  resolve h context v = Raises e →
  Step.run self context h = (Raises e, h).
Proof.
  intros Hinputs Hpre Hv. apply step_run_raise_resolution.
  rewrite Hinputs, resolve_inputs_app.
  destruct (resolve_inputs_returns h context pre ∅ Hpre) as [resolved ->].
  cbn [Step.resolve_inputs]. by rewrite Hv.
Qed.

Lemma first_failing_binding_witness :
  resolve caller_store 0 (VStr "$user.first")
  = Raises "'str' object has no attribute 'get'"
  ∧ Step.run bad_reference 0 caller_store
    = (Raises "'str' object has no attribute 'get'", caller_store).
Proof.
  split; [reflexivity|].
  apply (first_failing_binding bad_reference 0 caller_store
           [("count", VInt 1)] [("last", VStr "$x")] "first"
           (VStr "$user.first")); [reflexivity| |reflexivity].
  repeat constructor.
Defined.

Lemma written_key_ok (tr : list (Step.t * outcome val)) :
  failed tr = false → written_key <$> tr = Step.name <$> tr.*1.
Proof.
  induction tr as [|[s [r|e]] tr IH]; [done| |done].
  cbn. intros Hok. by rewrite IH.
Qed.

Lemma failed_take (tr : list (Step.t * outcome val)) (k : nat) :
  failed tr = false → failed (take k tr) = false.
Proof.
  revert k. induction tr as [|[s [r|e]] tr IH]; intros k Hok; [by destruct k| |done].
  destruct k as [|k]; [done|]. cbn. by apply IH.
Qed.

(** The store in which a step runs, and the context it finds there. *)
Lemma context_before_step (p : Pipeline.t) (initial_context : option loc)
    (started : string) (h : heap)
    (pre post : list Step.t) (s : Step.t) :
  let context := Pipeline.run_context p initial_context started h in
  let h0 := (Pipeline.init p initial_context started h).2 in
  let h' := (Pipeline.loop context pre ∅ h0).2 in
  Pipeline.steps p = (pre ++ s :: post)%list →
  failed (Pipeline.trace context pre h0) = false →
  Pipeline.run_trace p initial_context started h !! length pre
  = Some (s, (Step.run s context h').1)
  ∧ (Forall (quiet context) pre →
     deref h' context
     = recorded (Pipeline.trace context pre h0)
         (<["_started" := VStr started]>
            (<["_pipeline" := VStr (Pipeline.name p)]>
               (seed initial_context h)))).
Proof.
  intros context h0 h' Hsteps Hok.
  destruct (run_unfold p initial_context started "" h) as [_ Htr].
  destruct (init_spec p initial_context started h) as (Hctx & Hinit & _ & _).
  fold context h0 in Htr, Hctx, Hinit. split.
  - rewrite Htr, Hsteps, (trace_app _ _ _ ∅), Hok.
    assert (length (Pipeline.trace context pre h0) = length pre) as Hlen.
    { rewrite <- (length_fmap fst), trace_complete by done. done. }
    rewrite lookup_app_r by lia. rewrite Hlen, Nat.sub_diag.
    fold h'. cbn [Pipeline.trace].
    by destruct (Step.run s context h') as [[r|e] h1].
  - intros Hquiet. subst h'. by rewrite loop_context, Hinit.
Qed.

Lemma target_dotted (step_name output_key : string) :
  contains "." step_name = false →
  target (step_name +:+ String "." output_key) = step_name.
Proof. intros Hdot. unfold target. by rewrite split1_app. Qed.

Lemma target_plain (ref : string) :
  contains "." ref = false → target ref = ref.
Proof. intros Hdot. unfold target, split1. by rewrite cut_None. Qed.

(** What a reference reads first is the entry under its target. *)
Lemma resolve_missing_target (h : heap) (context : loc)
    (ref : string) :
  deref h context !! target ref = None →
  resolve h context (VStr (String "$" ref)) = Returns VNone.
Proof.
  intros Hnone.
  destruct (resolve_dollar_cases h context ref)
    as [[Hdot ->]|(a & b & -> & Ha & _ & ->)].
  - rewrite target_plain in Hnone by done. unfold dict_get. by rewrite Hnone.
  - rewrite target_dotted in Hnone by done.
    by apply lookup_output_missing_step.
Qed.

(** A reference whose target is not the name of a step that ran before,
    nor a stamp, nor an entry of the caller's context, is bound to [None]
    when the step runs: references to later steps, to the step itself and
    to names that no step has are not errors. *)
Theorem unknown_reference_is_none (p : Pipeline.t)
    (initial_context : option loc) (started : string)
    (h : heap)
    (pre post : list Step.t) (s : Step.t) (ref : string) :
  let context := Pipeline.run_context p initial_context started h in
  let h0 := (Pipeline.init p initial_context started h).2 in
  let h' := (Pipeline.loop context pre ∅ h0).2 in
  Pipeline.steps p = (pre ++ s :: post)%list →
  failed (Pipeline.trace context pre h0) = false →
  Forall (quiet context) pre →
  target ref ∉ dom (seed initial_context h) →
  target ref ∉ ["_pipeline"; "_started"] →
  target ref ∉ Step.name <$> pre →
  Pipeline.run_trace p initial_context started h !! length pre
  = Some (s, (Step.run s context h').1)
  ∧ resolve h' context (VStr (String "$" ref)) = Returns VNone.
Proof.
  intros context h0 h' Hsteps Hok Hquiet Hseed Hres Hpre.
  destruct (context_before_step p initial_context started h pre post s
              Hsteps Hok) as [Hruns Hctx].
  fold context h0 h' in Hruns, Hctx. specialize (Hctx Hquiet).
  split; [done|]. apply resolve_missing_target.
  rewrite Hctx, recorded_lookup_other.
  - apply not_elem_of_cons in Hres as [Hne1 Hres].
    apply not_elem_of_cons in Hres as [Hne2 _].
    rewrite !lookup_insert_ne by done. by apply not_elem_of_dom.
  - rewrite written_key_ok, trace_complete by done. done.
Qed.

Lemma unknown_reference_is_none_witness :
  let fetch := Step.mk "fetch" (returning {["value" := VInt 10]}) [] ["value"] in
  let context := Pipeline.run_context fetch_then_double None "t0" ∅ in
  let h0 := (Pipeline.init fetch_then_double None "t0" ∅).2 in
  Forall (quiet context) [fetch]
  ∧ resolve (Pipeline.loop context [fetch] ∅ h0).2 context (VStr "$later.value")
    = Returns VNone.
Proof.
  intros fetch context h0.
  assert (Forall (quiet context) [fetch]) as Hquiet.
  { repeat constructor. apply returning_quiet. }
  split; [exact Hquiet|].
  apply (unknown_reference_is_none fetch_then_double None "t0" ∅ [fetch] []
           (Step.mk "double" doubling [("n", VStr "$fetch.value")] ["value"])
           "later.value"); [reflexivity|reflexivity|exact Hquiet| | |].
  - cbn. set_solver.
  - change (target "later.value") with "later". set_solver.
  - change (target "later.value") with "later". cbn. set_solver.
Defined.

(** When step [s] runs after step [a] returned [r], and no step between
    them has the name of [a], ["$a"] is bound to [r] itself; ["$a.key"]
    is bound to what the dictionary [r] holds under [key] at that time,
    which is what [a] left there when no step in between writes that
    dictionary; when [r] is [None], a [bool], an [int] or a [str],
    ["$a.key"] raises. *)
Theorem reference_delivers_result (p : Pipeline.t)
    (initial_context : option loc) (started : string)
    (h : heap)
    (pre post : list Step.t) (s : Step.t)
    (j : nat) (a : Step.t) (r : val) :
  let context := Pipeline.run_context p initial_context started h in
  let h0 := (Pipeline.init p initial_context started h).2 in
  let h' := (Pipeline.loop context pre ∅ h0).2 in
  Pipeline.steps p = (pre ++ s :: post)%list →
  failed (Pipeline.trace context pre h0) = false →
  Forall (quiet context) pre →
  Pipeline.trace context pre h0 !! j = Some (a, Returns r) →
  contains "." (Step.name a) = false →
  (∀ j' a', j < j' → pre !! j' = Some a' → Step.name a' ≠ Step.name a) →
  Pipeline.run_trace p initial_context started h !! length pre
  = Some (s, (Step.run s context h').1)
  ∧ resolve h' context (VStr (String "$" (Step.name a))) = Returns r
  ∧ (∀ l output_key,
       r = VRef l →
       resolve h' context
         (VStr (String "$" (Step.name a +:+ String "." output_key)))
       = Returns (dict_get (deref h' l) output_key VNone))
  ∧ (∀ output_key,
       scalar r →
       resolve h' context
         (VStr (String "$" (Step.name a +:+ String "." output_key)))
       = Raises ("'" +:+ type_name r +:+ "' object has no attribute 'get'"))
  ∧ (∀ l, r = VRef l → l ≠ context →
       l ∈ dom (Pipeline.loop context (take (S j) pre) ∅ h0).2 →
       Forall (quiet l) (drop (S j) pre) →
       h' !! l = (Pipeline.loop context (take (S j) pre) ∅ h0).2 !! l).
Proof.
  intros context h0 h' Hsteps Hok Hquiet Hj Hdot Hlater.
  destruct (context_before_step p initial_context started h pre post s
              Hsteps Hok) as [Hruns Hctx].
  fold context h0 h' in Hruns, Hctx. specialize (Hctx Hquiet).
  assert (deref h' context !! Step.name a = Some r) as Hentry.
  { rewrite Hctx.
    apply (recorded_lookup _ _ j (a, Returns r) Hj).
    intros j' [a' [r'|e']] Hlt Hj'; cbn.
    - apply (Hlater j' a' Hlt). by apply trace_lookup_step in Hj'.
    - apply list_elem_of_lookup_2 in Hj'.
      assert (failed (Pipeline.trace context pre h0) = true) as Hf; [|congruence].
      apply existsb_exists. exists (a', Raises e'). split; [|done].
      by apply list_elem_of_In. }
  split_and!; [done| | | |].
  - rewrite resolve_dollar_plain by done. unfold dict_get. by rewrite Hentry.
  - intros l output_key ->. rewrite resolve_dollar_dotted by done.
    by apply lookup_output_dict.
  - intros output_key Hscalar. rewrite resolve_dollar_dotted by done.
    by apply lookup_output_scalar.
  - intros l -> Hne Hl Hql. subst h'.
    rewrite <- (take_drop (S j) pre) at 1. rewrite loop_app.
    rewrite trace_take, failed_take by done.
    by apply loop_frame.
Qed.

Lemma reference_delivers_result_witness :
  let fetch := Step.mk "fetch" (returning {["value" := VInt 10]}) [] ["value"] in
  let context := Pipeline.run_context fetch_then_double None "t0" ∅ in
  let h0 := (Pipeline.init fetch_then_double None "t0" ∅).2 in
  Forall (quiet context) [fetch]
  ∧ Pipeline.trace context [fetch] h0 !! 0 = Some (fetch, Returns (VRef 1))
  ∧ resolve (Pipeline.loop context [fetch] ∅ h0).2 context (VStr "$fetch")
    = Returns (VRef 1).
Proof.
  intros fetch context h0.
  assert (Forall (quiet context) [fetch]) as Hquiet.
  { repeat constructor. apply returning_quiet. }
  split; [exact Hquiet|]. split; [reflexivity|].
  apply (reference_delivers_result fetch_then_double None "t0" ∅ [fetch] []
           (Step.mk "double" doubling [("n", VStr "$fetch.value")] ["value"])
           0 fetch (VRef 1)); [reflexivity|reflexivity|exact Hquiet|reflexivity|reflexivity|].
  intros j' a' Hlt Hj'. destruct j' as [|j']; [lia|discriminate Hj'].
Defined.

(** The result of a step whose name contains a dot cannot be referenced:
    once it is recorded in the context under the step's name, ["$"]
    followed by that name still reads the entry of the text before the
    first dot. *)
Theorem dotted_step_name_unreachable (name : string) :
  contains "." name = true →
  ∃ step_name output_key,
    name = step_name +:+ String "." output_key
    ∧ contains "." step_name = false
    ∧ ∀ h context result,
        deref h context !! step_name = None →
        deref (setitem h context name result) context !! name = Some result
        ∧ resolve (setitem h context name result) context
            (VStr (String "$" name))
          = Returns VNone.
Proof.
  intros Hdot. destruct (contains_cut _ _ Hdot) as (a & b & Hcut).
  destruct (cut_Some _ _ _ _ Hcut) as [-> Ha].
  exists a, b. split_and!; [done|done|].
  intros h context result Hnone. rewrite deref_setitem. split.
  - by rewrite lookup_insert_eq.
  - rewrite resolve_dollar_dotted by done.
    apply lookup_output_missing_step. rewrite deref_setitem.
    rewrite lookup_insert_ne; [done|].
    intros Heq. rewrite <- Heq in Ha. by rewrite contains_app in Ha.
Qed.

Lemma dotted_step_name_unreachable_witness :
  contains "." "v1.fetch" = true
  ∧ ∃ step_name output_key,
      "v1.fetch" = step_name +:+ String "." output_key
      ∧ contains "." step_name = false.
Proof.
  split; [reflexivity|].
  destruct (dotted_step_name_unreachable "v1.fetch" eq_refl)
    as (step_name & output_key & Hname & Hdot & _).
  by exists step_name, output_key.
Defined.

(** The entry of a completed step in the results and its entry in the
    context are the same value: for a dictionary, the same object. *)
Theorem results_and_context_share (p : Pipeline.t)
    (initial_context : option loc) (started completed : string)
    (h : heap) (j : nat) (s : Step.t) (r : val) :
  let context := Pipeline.run_context p initial_context started h in
  let tr := Pipeline.run_trace p initial_context started h in
  let results := (Pipeline.run p initial_context started completed h).1 in
  let hf := (Pipeline.run p initial_context started completed h).2 in
  Forall (quiet context) (Pipeline.steps p) →
  tr !! j = Some (s, Returns r) →
  Step.name s ∉ ["_context"; "_completed"; "_error"] →
  (∀ j' s' o', j < j' → tr !! j' = Some (s', o') → Step.name s' ≠ Step.name s) →
  results !! Step.name s = Some r
  ∧ deref hf context !! Step.name s = Some r.
Proof.
  intros context tr results hf Hquiet Hj Hname Hlater.
  apply not_elem_of_cons in Hname as [Hne1 Hname].
  apply not_elem_of_cons in Hname as [Hne2 Hname].
  apply not_elem_of_cons in Hname as [Hne3 _].
  destruct (run_results p initial_context started completed h)
    as (_ & _ & Hentry & _).
  fold context tr results hf in Hentry. split.
  - destruct (Hentry j s (Returns r) Hj Hne1 Hlater) as (v & Hv & ->). done.
  - subst hf context. rewrite (run_context_content _ _ _ _ _ Hquiet).
    rewrite lookup_insert_ne by done.
    apply (recorded_lookup _ _ j (s, Returns r) Hj).
    intros j' [s' [r'|e']] Hlt Hj'; cbn.
    + by apply (Hlater j' s' (Returns r')).
    + done.
Qed.

Lemma doubling_quiet (l : loc) (name : string)
    (inputs : list (string * val)) (outputs : list string) :
  quiet l (Step.mk name doubling inputs outputs).
Proof.
  intros kw h Hl. cbn. unfold doubling.
  destruct (kw !! "n") as [[| |n| | |]|]; try done.
  cbn. apply lookup_singleton_ne. intros Heq.
  apply (is_fresh (dom h)). by rewrite Heq.
Qed.

Lemma results_and_context_share_witness :
  let context := Pipeline.run_context fetch_then_double None "t0" ∅ in
  let run := Pipeline.run fetch_then_double None "t0" "t1" ∅ in
  Forall (quiet context) (Pipeline.steps fetch_then_double)
  ∧ run.1 !! "fetch" = Some (VRef 1)
  ∧ deref run.2 context !! "fetch" = Some (VRef 1).
Proof.
  intros context run.
  assert (Forall (quiet context) (Pipeline.steps fetch_then_double)) as Hquiet.
  { repeat constructor; [apply returning_quiet|apply doubling_quiet]. }
  split; [exact Hquiet|].
  apply (results_and_context_share fetch_then_double None "t0" "t1" ∅ 0
           (Step.mk "fetch" (returning {["value" := VInt 10]}) [] ["value"])
           (VRef 1) Hquiet); [reflexivity| |].
  - cbn. set_solver.
  - intros j' s' o' Hlt Hj'. destruct j' as [|[|j']]; [lia| |discriminate Hj'].
    vm_compute in Hj'. injection Hj' as <- _. discriminate.
Defined.

(** [run] does not clear ["_error"]: when the caller's context already
    has one, it is still there after a run in which every step
    returned. *)
Theorem stale_error_survives (p : Pipeline.t) (l : nat)
    (started completed : string) (h : heap) (v : val) :
  let tr := Pipeline.run_trace p (Some l) started h in
  let hf := (Pipeline.run p (Some l) started completed h).2 in
  deref h l !! "_error" = Some v →
  Forall (quiet l) (Pipeline.steps p) →
  failed tr = false →
  "_error" ∉ Step.name <$> Pipeline.steps p →
  Pipeline.run_context p (Some l) started h = l
  ∧ tr.*1 = Pipeline.steps p
  ∧ deref hf l !! "_error" = Some v.
Proof.
  intros tr hf Hstale Hquiet Hok Hname.
  assert (Pipeline.run_context p (Some l) started h = l) as Hctx.
  { rewrite init_context. rewrite decide_False; [done|].
    intros Hempty. by rewrite Hempty in Hstale. }
  destruct (run_unfold p (Some l) started completed h) as [_ Htr].
  fold tr in Htr. rewrite Hctx in Htr.
  assert (tr.*1 = Pipeline.steps p) as Hall.
  { rewrite Htr. apply trace_complete. by rewrite <- Htr. }
  split_and!; [done|done|].
  rewrite <- Hctx in Hquiet.
  pose proof (run_context_content p (Some l) started completed h Hquiet)
    as Hcontent.
  rewrite Hctx in Hcontent. fold hf tr in Hcontent. rewrite Hcontent.
  rewrite lookup_insert_ne by done. rewrite recorded_lookup_other.
  - by rewrite !lookup_insert_ne.
  - rewrite written_key_ok, Hall by done. done.
Qed.

Lemma stale_error_survives_witness :
  deref stale_store 0 !! "_error" = Some (VStr "old")
  ∧ failed (Pipeline.run_trace greeting (Some 0) "t0" stale_store) = false
  ∧ deref (Pipeline.run greeting (Some 0) "t0" "t1" stale_store).2 0 !! "_error"
    = Some (VStr "old").
Proof.
  split; [reflexivity|]. split; [reflexivity|].
  apply (stale_error_survives greeting 0 "t0" "t1" stale_store (VStr "old"));
    [reflexivity| |reflexivity|].
  - repeat constructor. apply returning_quiet.
  - cbn. set_solver.
Defined.

(** ** The example pipelines *)

Ltac inputs_cases H :=
  repeat (apply elem_of_cons in H as [H|H]; [injection H as ? ?; subst|]);
  try (by apply elem_of_nil in H).

(** The content pipeline has the steps research, write, image, save, and
    when the topic, the content type and the title do not start with
    ["$"], each of its references reads the entry of an earlier step. *)
Theorem content_pipeline_wired
    (research_topic write_content generate_hero_image save_to_docs
       : dict → heap → effect)
    (title : string → string) (topic content_type : string) :
  String.prefix "$" topic = false →
  String.prefix "$" content_type = false →
  String.prefix "$" (title content_type +:+ ": " +:+ topic) = false →
  let p := create_content_pipeline research_topic write_content
             generate_hero_image save_to_docs title topic content_type in
  Step.name <$> Pipeline.steps p = ["research"; "write"; "image"; "save"]
  ∧ wired p.
Proof.
  intros Htopic Htype Htitle p. split; [done|].
  intros j s key ref Hj Hin. cbn in Hj.
  destruct j as [|[|[|[|j]]]]; cbn in Hj; try done;
    injection Hj as <-; cbn in Hin; inputs_cases Hin;
    try (by rewrite prefix_dollar in Htopic);
    try (by rewrite prefix_dollar in Htype);
    try (by match goal with H : String "$" _ = _ |- _ =>
              rewrite <- H, prefix_dollar in Htitle end).
  - exists 0, (Step.mk "research" research_topic [("topic", VStr topic)] []).
    split; [lia|]. by split.
  - eexists 1, _. split; [lia|]. by split.
Qed.

Lemma content_pipeline_wired_witness :
  wired (create_content_pipeline (raising "offline") (raising "offline")
           (raising "offline") (raising "offline") (λ s, s)
           "AI in Healthcare" "blog post").
Proof.
  exact (proj2 (content_pipeline_wired (raising "offline") (raising "offline")
                  (raising "offline") (raising "offline") (λ s, s)
                  "AI in Healthcare" "blog post" eq_refl eq_refl eq_refl)).
Defined.

(** In each of its four configurations (with or without spreadsheet,
    with or without recipient) the newsletter pipeline has distinct step
    names, and when none of its arguments starts with ["$"], each of its
    references reads the entry of an earlier step. *)
Theorem newsletter_pipeline_wired
    (pull_data analyze_data research write_newsletter generate_header_image
       create_draft : dict → heap → effect)
    (topic : string) (spreadsheet_id : option string) (sheet_range : string)
    (recipient : option string) :
  String.prefix "$" topic = false →
  String.prefix "$" sheet_range = false →
  (∀ s, spreadsheet_id = Some s → String.prefix "$" s = false) →
  (∀ s, recipient = Some s → String.prefix "$" s = false) →
  let p := create_newsletter_pipeline pull_data analyze_data research
             write_newsletter generate_header_image create_draft
             topic spreadsheet_id sheet_range recipient in
  Step.name <$> Pipeline.steps p
  = ((if truthy spreadsheet_id then ["pull_data"] else [])
     ++ ["analyze"; "write"; "image"]
     ++ (if truthy recipient then ["draft"] else []))%list
  ∧ NoDup (Step.name <$> Pipeline.steps p)
  ∧ wired p.
Proof.
  intros Htopic Hrange Hsheet Hto p.
  assert (String.prefix "$" (default "" spreadsheet_id) = false) as Hsheet'.
  { destruct spreadsheet_id as [s|]; [by apply Hsheet|done]. }
  assert (String.prefix "$" (default "" recipient) = false) as Hto'.
  { destruct recipient as [s|]; [by apply Hto|done]. }
  subst p. unfold create_newsletter_pipeline.
  destruct (truthy spreadsheet_id), (truthy recipient); cbn;
    (split; [done|]); (split; [repeat constructor; set_solver|]);
    intros j s key ref Hj Hin; cbn in Hj;
    repeat (destruct j as [|j]; cbn in Hj;
            [injection Hj as <-; cbn in Hin; inputs_cases Hin;
             try (by rewrite prefix_dollar in Htopic);
             try (by rewrite prefix_dollar in Hrange);
             try (by match goal with H : String "$" _ = _ |- _ =>
                       rewrite <- H, prefix_dollar in Hsheet' end);
             try (by match goal with H : String "$" _ = _ |- _ =>
                       rewrite <- H, prefix_dollar in Hto' end);
             try (by eexists 0, _; split; [lia|]; split);
             try (by eexists 1, _; split; [lia|]; split);
             try (by eexists 2, _; split; [lia|]; split)
            |]);
    try done.
Qed.

Lemma newsletter_pipeline_wired_witness :
  wired (create_newsletter_pipeline (raising "offline") (raising "offline")
           (raising "offline") (raising "offline") (raising "offline")
           (raising "offline") "Weekly Update" (Some "abc123")
           "Sheet1!A1:Z100" (Some "team@example.com")).
Proof.
  apply (newsletter_pipeline_wired (raising "offline") (raising "offline")
           (raising "offline") (raising "offline") (raising "offline")
           (raising "offline") "Weekly Update" (Some "abc123")
           "Sheet1!A1:Z100" (Some "team@example.com"));
    [reflexivity|reflexivity| |].
  - intros s Hs. injection Hs as <-. reflexivity.
  - intros s Hs. injection Hs as <-. reflexivity.
Defined.

(** In a run without initial context, the first step finds only the two
    stamps in the context. *)
Lemma fresh_context_reference (p : Pipeline.t) (started : string)
    (h : heap) (ref : string) :
  let context := Pipeline.run_context p None started h in
  let h0 := (Pipeline.init p None started h).2 in
  resolve h0 context (VStr (String "$" ref))
  ∈ [Returns VNone; Returns (VStr (Pipeline.name p)); Returns (VStr started);
     Raises "'str' object has no attribute 'get'"].
Proof.
  intros context h0.
  destruct (init_spec p None started h) as (_ & Hinit & _ & _).
  fold context h0 in Hinit. cbn [seed] in Hinit.
  destruct (resolve_dollar_cases h0 context ref)
    as [[Hdot ->]|(a & b & _ & Ha & _ & ->)].
  - unfold dict_get. rewrite Hinit.
    destruct (decide (ref = "_started")) as [->|Hne1].
    { rewrite lookup_insert_eq. set_solver. }
    rewrite lookup_insert_ne by done.
    destruct (decide (ref = "_pipeline")) as [->|Hne2].
    { rewrite lookup_insert_eq. set_solver. }
    rewrite lookup_insert_ne by done. rewrite lookup_empty. set_solver.
  - unfold lookup_output. rewrite Hinit.
    destruct (decide (a = "_started")) as [->|Hne1].
    { rewrite lookup_insert_eq. set_solver. }
    rewrite lookup_insert_ne by done.
    destruct (decide (a = "_pipeline")) as [->|Hne2].
    { rewrite lookup_insert_eq. set_solver. }
    rewrite lookup_insert_ne by done. rewrite lookup_empty. set_solver.
Qed.

(** A topic that starts with ["$"] does not reach [research_topic]: in a
    run without initial context the first step either raises before the
    call, or calls the action with [None], the name of the pipeline or
    the start stamp as its topic. *)
Theorem dollar_topic_is_lost
    (research_topic write_content generate_hero_image save_to_docs
       : dict → heap → effect)
    (title : string → string) (rest content_type started : string)
    (h : heap) :
  let topic := String "$" rest in
  let p := create_content_pipeline research_topic write_content
             generate_hero_image save_to_docs title topic content_type in
  let context := Pipeline.run_context p None started h in
  let h0 := (Pipeline.init p None started h).2 in
  let s := Step.mk "research" research_topic [("topic", VStr topic)] [] in
  Pipeline.run_trace p None started h !! 0 = Some (s, (Step.run s context h0).1)
  ∧ (Step.run s context h0
     = (Raises "'str' object has no attribute 'get'", h0)
     ∨ ∃ v, v ∈ [VNone; VStr "content_creation"; VStr started]
            ∧ Step.run s context h0
              = (result (research_topic {["topic" := v]} h0),
                 writes (research_topic {["topic" := v]} h0) ∪ h0)).
Proof.
  intros topic p context h0 s. split.
  - destruct (run_unfold p None started "" h) as [_ ->].
    fold context h0. change (Pipeline.steps p) with
      (s :: drop 1 (Pipeline.steps p)).
    cbn [Pipeline.trace]. by destruct (Step.run s context h0) as [[r|e] h1].
  - pose proof (fresh_context_reference p started h rest) as Hres.
    cbv zeta in Hres. fold context h0 in Hres.
    unfold Step.run. cbn [Step.inputs s Step.resolve_inputs].
    change (Pipeline.name p) with "content_creation" in Hres.
    subst topic.
    set (o := resolve h0 context (VStr (String "$" rest))) in *.
    clearbody o. destruct o as [v|e].
    + right. exists v. split; [|by rewrite insert_empty].
      apply elem_of_cons in Hres as [[= ->]|Hres]; [by left|].
      apply elem_of_cons in Hres as [[= ->]|Hres]; [by right; left|].
      apply elem_of_cons in Hres as [[= ->]|Hres]; [by right; right; left|].
      apply elem_of_cons in Hres as [[=]|Hres]. by apply elem_of_nil in Hres.
    + left.
      apply elem_of_cons in Hres as [[=]|Hres].
      apply elem_of_cons in Hres as [[=]|Hres].
      apply elem_of_cons in Hres as [[=]|Hres].
      apply elem_of_cons in Hres as [[= ->]|Hres]; [done|].
      by apply elem_of_nil in Hres.
Qed.

(** ** The draft of the newsletter *)

Lemma split_cut (sep : ascii) (s : string) :
  str_split sep s
  = match cut sep s with
    | Some (a, b) => a :: str_split sep b
    | None => [s]
    end.
Proof.
  induction s as [|c r IH]; [done|]. cbn [str_split cut].
  destruct (decide (c = sep)); [done|]. rewrite IH.
  by destruct (cut sep r) as [[a b]|].
Qed.

Lemma join_split (sep : ascii) (s : string) :
  str_join (String sep "") (str_split sep s) = s.
Proof.
  induction s as [|c r IH]; [done|]. cbn [str_split].
  destruct (decide (c = sep)) as [->|Hne].
  - cbn [str_join]. destruct (str_split sep r) as [|first others] eqn:Hsplit.
    + rewrite split_cut in Hsplit. by destruct (cut sep r) as [[a b]|].
    + by rewrite IH.
  - destruct (str_split sep r) as [|first others] eqn:Hsplit.
    + rewrite split_cut in Hsplit. by destruct (cut sep r) as [[a b]|].
    + cbn [str_join] in *. destruct others; cbn in *; by rewrite <- IH.
Qed.

Lemma split_first_line (s : string) :
  ∃ others, str_split "010" s = first_line s :: others
            ∧ str_join (String "010" "") others = after_first_line s.
Proof.
  unfold first_line, after_first_line. rewrite split_cut.
  destruct (cut "010" s) as [[a b]|]; eexists; split; try done.
  apply join_split.
Qed.

Lemma prefix_lower_first_line (pat s : string) :
  contains "010" pat = false →
  String.prefix pat (lower (first_line s)) = String.prefix pat (lower s).
Proof.
  unfold first_line. revert pat. induction s as [|c r IH]; intros pat Hpat; [done|].
  cbn [cut]. destruct (decide (c = "010"%char)) as [->|Hne].
  - destruct pat as [|p q]; [done|]. cbn in Hpat |- *.
    destruct (decide (p = "010"%char)); [done|].
    change (lower_char "010") with "010"%char.
    by destruct (ascii_dec p "010").
  - specialize (IH (match pat with String _ q => q | EmptyString => EmptyString end)).
    destruct (cut "010" r) as [[a b]|]; destruct pat as [|p q]; try done;
      cbn in Hpat |- *; destruct (decide (p = "010"%char)); try done;
      destruct (ascii_dec p (lower_char c)); try done; by apply IH.
Qed.

Lemma replace_from_skip (old new u s : string) :
  str_replace_from old new (String.length u) (u +:+ s) = str_replace_from old new 0 s.
Proof. induction u as [|c u IH]; [done|]. apply IH. Qed.

Lemma prefix_app (old s : string) : String.prefix old (old +:+ s) = true.
Proof.
  induction old as [|c old IH]; [by destruct s|].
  change (String c old +:+ s) with (String c (old +:+ s)).
  cbn [String.prefix]. by destruct (ascii_dec c c).
Qed.

(** A leading occurrence is replaced and the scan goes on behind it. *)
Lemma replace_leading (old new s : string) :
  old ≠ EmptyString →
  str_replace old new (old +:+ s) = new +:+ str_replace old new s.
Proof.
  intros Hold. destruct old as [|c old]; [done|]. unfold str_replace.
  change (String c old +:+ s) with (String c (old +:+ s)).
  cbn [str_replace_from].
  change (String c (old +:+ s)) with (String c old +:+ s).
  rewrite prefix_app.
  replace (String.length (String c old) - 1) with (String.length old)
    by (cbn [String.length]; lia).
  by rewrite replace_from_skip.
Qed.

(** Without an occurrence nothing is replaced. *)
Lemma replace_absent (old new s : string) :
  occurs old s = false → str_replace old new s = s.
Proof.
  unfold str_replace. induction s as [|c r IH]; [done|]. cbn [occurs str_replace_from].
  intros [Hpre Hocc]%orb_false_elim. rewrite Hpre. by rewrite IH.
Qed.

Lemma draft_fields_unfold (subject body : latin1) :
  draft_fields subject body
  = if String.prefix "subject:" (lower (strip body)) then
      Returns (strip (str_replace "subject:" ""
                        (str_replace "Subject:" "" (first_line (strip body)))),
               strip (after_first_line (strip body)))
    else Returns (subject, body).
Proof.
  unfold draft_fields.
  destruct (split_first_line (strip body)) as (others & -> & Hjoin).
  rewrite prefix_lower_first_line by done. by rewrite Hjoin.
Qed.

(** For a subject and a body of code points below 256: the fields of the
    draft are defined, also for an empty body; when the body, stripped
    and in lower case, does not start with ["subject:"], subject and body
    are passed on as given, the body unstripped. *)
Theorem draft_without_subject_line (subject body : latin1) :
  (∃ subject' body', draft_fields subject body = Returns (subject', body'))
  ∧ (String.prefix "subject:" (lower (strip body)) = false →
       draft_fields subject body = Returns (subject, body)).
Proof.
  rewrite draft_fields_unfold.
  destruct (String.prefix "subject:" (lower (strip body))); split; by eauto.
Qed.

Lemma draft_without_subject_line_witness :
  String.prefix "subject:" (lower (strip " Hello team ")) = false
  ∧ draft_fields "Newsletter: news" " Hello team "
    = Returns ("Newsletter: news", " Hello team ").
Proof.
  split; [reflexivity|].
  exact (proj2 (draft_without_subject_line "Newsletter: news" " Hello team ")
           eq_refl).
Defined.

(** For a subject and a body of code points below 256: when the stripped
    body starts with ["subject:"] in any case, the body of the draft is
    what follows the first line, stripped, and the given subject is
    dropped.  The new subject is the rest of the first line when the
    label is spelled ["Subject:"] or ["subject:"]; a label in another
    spelling stays in the subject. *)
Theorem draft_with_subject_line (subject body : latin1) :
  String.prefix "subject:" (lower (strip body)) = true →
  let line := first_line (strip body) in
  ∃ subject',
    draft_fields subject body
    = Returns (subject', strip (after_first_line (strip body)))
    ∧ (∀ label text,
         label = "Subject:" ∨ label = "subject:" →
         line = label +:+ text →
         occurs "Subject:" text = false →
         occurs "subject:" text = false →
         subject' = strip text)
    ∧ (occurs "Subject:" line = false →
       occurs "subject:" line = false →
       subject' = strip line).
Proof.
  intros Hsubject line. rewrite draft_fields_unfold, Hsubject. fold line.
  eexists. split_and!; [done| |].
  - intros label text [->| ->] -> Hupper Hlower.
    + rewrite (replace_leading "Subject:") by done. cbn [append].
      by rewrite (replace_absent "Subject:"), (replace_absent "subject:").
    + rewrite (replace_absent "Subject:").
      * rewrite (replace_leading "subject:") by done. cbn [append].
        by rewrite (replace_absent "subject:").
      * change ("subject:" +:+ text)
          with (String "s" (String "u" (String "b" (String "j" (String "e"
                 (String "c" (String "t" (String ":" text)))))))).
        cbn [occurs String.prefix]. cbn. by rewrite Hupper.
  - intros Hupper Hlower.
    by rewrite (replace_absent "Subject:"), (replace_absent "subject:").
Qed.

Lemma draft_with_subject_line_witness :
  String.prefix "subject:" (lower (strip "SUBJECT: Weekly")) = true
  ∧ ∃ subject',
      draft_fields "Newsletter: news" "SUBJECT: Weekly" = Returns (subject', "")
      ∧ subject' = "SUBJECT: Weekly".
Proof.
  split; [reflexivity|].
  destruct (draft_with_subject_line "Newsletter: news" "SUBJECT: Weekly" eq_refl)
    as (subject' & Hfields & _ & Hkept).
  exists subject'. split; [exact Hfields|].
  exact (Hkept eq_refl eq_refl).
Defined.
